(** * BananaGen studio: record store, lineage reconstruction and gateway

  A shallow embedding of the TypeScript sources of the studio:

  - [types.ts]                     -> [Module Types]
  - [services/geminiService.ts]    -> [Module GeminiService]
  - [App.tsx]                      -> [Module App]
  - [components/Generator.tsx]     -> [Module Generator]
  - [components/Editor.tsx]        -> [Module Editor]
  - [unnamed/part_000]             -> [Module EditorLegacy]
    (an earlier revision of the editor component that is still part of the
    repository)

  JavaScript strings are embedded as Rocq strings: a character of the
  embedding is a code unit below 256.  Numbers that hold [Date.now()] are
  integers.  Everything the browser or the network decides (the remote
  model, [uuidv4()], [Date.now()], the canvas, [localStorage], [JSON.parse])
  is an explicit input of the function that consults it. *)

From stdpp Require Import gmap strings list.
From Stdlib Require Import Ascii String ZArith Lia Sorted.

Local Open Scope string_scope.

(** ** JavaScript values and effects *)

Module Js.

(** Truthiness of a string: only the empty string is falsy. *)
Definition truthy (s : string) : bool :=
  match s with
  | EmptyString => false
  | String _ _ => true
  end.

(** Truthiness of an optional string property ([undefined] is falsy). *)
Definition truthy_opt (o : option string) : bool :=
  match o with
  | Some s => truthy s
  | None => false
  end.

(** [o || d] for an optional string [o] and a string default [d]. *)
Definition or_default (o : option string) (d : string) : string :=
  match o with
  | Some s => if truthy s then s else d
  | None => d
  end.

(** White space and line terminators of ECMAScript that are code units
    below 256: TAB, LF, VT, FF, CR, SP and NBSP. *)
Definition isWhiteSpace (c : ascii) : bool :=
  let n := nat_of_ascii c in
  (n =? 9)%nat || (n =? 10)%nat || (n =? 11)%nat || (n =? 12)%nat
  || (n =? 13)%nat || (n =? 32)%nat || (n =? 160)%nat.

(** Line terminators: the characters [.] of a regular expression rejects. *)
Definition isLineTerminator (c : ascii) : bool :=
  let n := nat_of_ascii c in (n =? 10)%nat || (n =? 13)%nat.

Fixpoint trimStart (s : string) : string :=
  match s with
  | EmptyString => EmptyString
  | String c s' => if isWhiteSpace c then trimStart s' else s
  end.

Fixpoint trimEnd (s : string) : string :=
  match s with
  | EmptyString => EmptyString
  | String c s' =>
      match trimEnd s' with
      | EmptyString => if isWhiteSpace c then EmptyString else String c EmptyString
      | t => String c t
      end
  end.

(** [String.prototype.trim]. *)
Definition trim (s : string) : string := trimEnd (trimStart s).

Fixpoint all_chars (p : ascii -> bool) (s : string) : bool :=
  match s with
  | EmptyString => true
  | String c s' => p c && all_chars p s'
  end.

(** [startsWith]-style prefix removal. *)
Fixpoint strip_prefix (p s : string) : option string :=
  match p, s with
  | EmptyString, _ => Some s
  | String a p', String b s' => if Ascii.eqb a b then strip_prefix p' s' else None
  | String _ _, EmptyString => None
  end.

(** The outcome of a call that may throw; a thrown value is represented by
    its [message] property, which may be missing. *)
Inductive Result (A : Type) : Type :=
| Ok (a : A)
| Throw (message : option string).
Arguments Ok {A} a.
Arguments Throw {A} message.

(** [new Error(msg)] *)
Definition Error {A} (msg : string) : Result A := Throw (Some msg).

(** The two values that have no properties. *)
Inductive Nullish := undefined | null.

(** A value that a promise is rejected with: [undefined] or [null], or a
    value whose [message] property may be missing. *)
Inductive Thrown :=
| ThrownNullish (n : Nullish)
| ThrownValue (message : option string).

(** A text the engine words, such as the message of a [TypeError]: it is
    never empty. *)
Record EngineText := { first_char : ascii; more_chars : string }.

Definition text (m : EngineText) : string :=
  String (first_char m) (more_chars m).

End Js.

(** ** types.ts *)

Module Types.

Inductive ViewMode := generate | gallery | editor.

Inductive AspectRatio := R1_1 | R3_4 | R4_3 | R9_16 | R16_9.

(** The string a value of the union type [AspectRatio] is. *)
Definition ratio_string (r : AspectRatio) : string :=
  match r with
  | R1_1 => "1:1"
  | R3_4 => "3:4"
  | R4_3 => "4:3"
  | R9_16 => "9:16"
  | R16_9 => "16:9"
  end.

Definition ASPECT_RATIOS : list AspectRatio := [R1_1; R3_4; R4_3; R9_16; R16_9].

(** [GeneratedImage].  The interface of [types.ts] declares the first six
    fields; [components/Editor.tsx] also reads and writes an optional
    [parentId] on the same objects, so the embedding carries it: [None] is
    an object without the property. *)
Record GeneratedImage := {
  id : string;
  url : string;
  prompt : string;
  aspectRatio : string;
  timestamp : Z;
  model : string;
  parentId : option string
}.

#[global] Instance ViewMode_eq_dec : EqDecision ViewMode.
Proof. solve_decision. Defined.

#[global] Instance AspectRatio_eq_dec : EqDecision AspectRatio.
Proof. solve_decision. Defined.

#[global] Instance GeneratedImage_eq_dec : EqDecision GeneratedImage.
Proof. solve_decision. Defined.

End Types.

(** ** services/geminiService.ts *)

Module GeminiService.
Import Js Types.

(** One element of [contents.parts] of a request. *)
Inductive RequestPart :=
| TextPart (text : string)
| InlineDataPart (mimeType data : string).

(** The argument of [ai.models.generateContent]. *)
Record Request := {
  req_model : string;
  req_parts : list RequestPart;
  req_imageConfig : option AspectRatio
}.

(** The part of a response [extractImageFromResponse] looks at; a missing
    property is [None]. *)
Record InlineData := {
  inl_data : option string;
  inl_mimeType : option string
}.

Record Part := { inlineData : option InlineData }.

Record Content := { parts : option (list Part) }.

Record Candidate := { content : option Content }.

Record Response := { candidates : option (list Candidate) }.

(** What a service call leaves behind besides its result. *)
Inductive Event :=
| RemoteCall (r : Request)
| ConsoleError (msg : string).

(** How the promise of a remote call settles. *)
Inductive Settled (A : Type) : Type :=
| Fulfilled (a : A)
| Rejected (error : Thrown).
Arguments Fulfilled {A} a.
Arguments Rejected {A} error.

(** The environment of the service: [process.env.API_KEY], the remote model
    behind [ai.models.generateContent], and the message of the [TypeError]
    the engine throws when [.message] is read of [undefined] or of [null]. *)
Record Env := {
  API_KEY : option string;
  generateContent : Request -> Settled Response;
  typeErrorMessage : Nullish -> EngineText
}.

(** Computations that log events and may throw. *)
Definition Eff (A : Type) : Type := list Event * Result A.

Definition throw {A} (msg : string) : Eff A := ([], Error msg).

Definition bind {A B} (m : Eff A) (k : A -> Eff B) : Eff B :=
  match m with
  | (t, Ok a) => let '(t', r) := k a in ((t ++ t')%list, r)
  | (t, Throw e) => (t, Throw e)
  end.

(** Computations inside a [try] block: they log events, and what they throw
    is any value. *)
Definition Try (A : Type) : Type := list Event * Settled A.

Definition try_bind {A B} (m : Try A) (k : A -> Try B) : Try B :=
  match m with
  | (t, Fulfilled a) => let '(t', r) := k a in ((t ++ t')%list, r)
  | (t, Rejected e) => (t, Rejected e)
  end.

(** [try { m } catch (error) { h error }] *)
Definition try_catch {A} (m : Try A) (h : Thrown -> Eff A) : Eff A :=
  match m with
  | (t, Fulfilled a) => (t, Ok a)
  | (t, Rejected e) => let '(t', r) := h e in ((t ++ t')%list, r)
  end.

Definition emit (e : Event) : Eff unit := ([e], Ok tt).

(** [await ai.models.generateContent(req)] *)
Definition call_remote (env : Env) (req : Request) : Try Response :=
  ([RemoteCall req], generateContent env req).

(** A call of a function of this file inside the [try] block: what it
    throws is an [Error] with its message. *)
Definition lift {A} (r : Result A) : Try A :=
  ([], match r with
       | Ok a => Fulfilled a
       | Throw message => Rejected (ThrownValue message)
       end).

(** [throw new Error(error.message || fallback)]: reading [message] of
    [undefined] or of [null] throws a [TypeError] instead. *)
Definition rethrow {A} (env : Env) (error : Thrown) (fallback : string)
    : Eff A :=
  match error with
  | ThrownNullish n => throw (text (typeErrorMessage env n))
  | ThrownValue message => throw (or_default message fallback)
  end.

Notation "'do' x <- m ; k" := (try_bind m (fun x => k))
  (at level 10, x name, m at level 100, k at level 200).
Notation "'exec' m ; k" := (bind m (fun _ => k))
  (at level 10, m at level 100, k at level 200).

(** The loop [for (const part of parts)] of [extractImageFromResponse]:
    the first part with a truthy [inlineData.data] decides. *)
Fixpoint first_image (ps : list Part) : option string :=
  match ps with
  | [] => None
  | p :: ps' =>
      match inlineData p with
      | Some d =>
          if truthy_opt (inl_data d)
          then Some ("data:" ++ or_default (inl_mimeType d) "image/png"
                       ++ ";base64," ++ default "" (inl_data d))
          else first_image ps'
      | None => first_image ps'
      end
  end.

Definition extractImageFromResponse (response : Response) : Result string :=
  let no_image := Error "No image data found in the response." in
  match candidates response with
  | Some (c :: _) =>
      match content c with
      | Some ct =>
          match parts ct with
          | Some ps =>
              match first_image ps with
              | Some u => Ok u
              | None => no_image
              end
          | None => no_image
          end
      | None => no_image
      end
  | Some [] | None => no_image
  end.

Definition generateImageWithGemini (env : Env) (prompt : string)
    (aspectRatio : AspectRatio) : Eff string :=
  if negb (truthy_opt (API_KEY env))
  then throw "API Key is missing. Please configure your environment."
  else
    try_catch
      (do response <- call_remote env
          {| req_model := "gemini-2.5-flash-image";
             req_parts := [TextPart prompt];
             req_imageConfig := Some aspectRatio |};
       lift (extractImageFromResponse response))
      (fun error =>
         exec emit (ConsoleError "Gemini API Error:");
         rethrow env error "Failed to generate image.").

(** The separator of the data URL and the greedy split at it: the longest
    [m] with [s = m ++ ";base64," ++ d] and [d] not empty. *)
Definition SEP : string := ";base64,".

Fixpoint split_last (s : string) : option (string * string) :=
  match s with
  | EmptyString => None
  | String c s' =>
      match split_last s' with
      | Some (m, d) => Some (String c m, d)
      | None =>
          match strip_prefix SEP s with
          | Some d => if truthy d then Some (EmptyString, d) else None
          | None => None
          end
      end
  end.

(** [base64Image.match(/^data:(.+);base64,(.+)$/)]: the two groups of the
    match, or [None] when the result is [null].  [.] takes any character but
    a line terminator, [$] is the end of the input, both [+] are greedy. *)
Definition match_data_url (base64Image : string) : option (string * string) :=
  match strip_prefix "data:" base64Image with
  | Some (String c rest) =>
      if all_chars (fun a => negb (isLineTerminator a)) (String c rest)
      then
        match split_last rest with
        | Some (m, d) => Some (String c m, d)
        | None => None
        end
      else None
  | Some EmptyString | None => None
  end.

Definition editImageWithGemini (env : Env) (base64Image prompt : string)
    : Eff string :=
  if negb (truthy_opt (API_KEY env))
  then throw "API Key is missing."
  else
    match match_data_url base64Image with
    | None => throw "Invalid image format. Expected data URL."
    | Some (mimeType, data) =>
        try_catch
          (do response <- call_remote env
              {| req_model := "gemini-2.5-flash-image";
                 req_parts := [InlineDataPart mimeType data; TextPart prompt];
                 req_imageConfig := None |};
           lift (extractImageFromResponse response))
          (fun error =>
             exec emit (ConsoleError "Gemini Edit Error:");
             rethrow env error "Failed to edit image.")
    end.

(** The remote calls of a run. *)
Definition remote_calls (t : list Event) : list Request :=
  omap (fun e => match e with RemoteCall r => Some r | ConsoleError _ => None end) t.

End GeminiService.

(** ** App.tsx *)

Module App.
Import Js Types.

Record AppState := {
  currentView : ViewMode;
  images : list GeneratedImage;
  selectedImage : option GeneratedImage
}.

(** The three [useState] defaults. *)
Definition initial : AppState :=
  {| currentView := generate; images := []; selectedImage := None |}.

(** What [JSON.parse] makes of a text: an array of image records, another
    JSON value ([null], a number, a string, an object, an array of other
    things), or a [SyntaxError]. *)
Inductive Parsed :=
| ParsedImages (parsed : list GeneratedImage)
| ParsedOther
| ParseThrows (message : option string).

(** [JSON.parse], and [JSON.stringify] at the type of the store. *)
Record Json := {
  parse : string -> Parsed;
  stringify : list GeneratedImage -> string
}.

Definition DB_KEY : string := "bananagen_db".

(** The effect that loads the store on mount: the console output and the
    state after it.  [storage] is [localStorage].  Whatever [JSON.parse]
    returns is handed to [setImages] unchecked; [None] is a state in which
    [images] holds a value that is no array of image records, which is no
    [AppState]: when the value is no array at all ([null], an object, a
    number), rendering the gallery and adding an image throw. *)
Definition loadEffect (json : Json) (storage : gmap string string)
    (st : AppState) : list string * option AppState :=
  match storage !! DB_KEY with
  | Some saved =>
      if truthy saved then
        match parse json saved with
        | ParsedImages parsed =>
            ([], Some {| currentView := currentView st;
                         images := parsed;
                         selectedImage := selectedImage st |})
        | ParsedOther => ([], None)
        | ParseThrows _ => (["Failed to parse database"], Some st)
        end
      else ([], Some st)
  | None => ([], Some st)
  end.

(** The effect that saves the store whenever [images] changes. *)
Definition saveEffect (json : Json) (st : AppState)
    (storage : gmap string string) : gmap string string :=
  <[DB_KEY := stringify json (images st)]> storage.

(** Mounting the component: both effects run on the first render, the second
    one again once the loaded store is rendered.  The result is the console
    output and, when the state holds a store, the state and [localStorage]. *)
Definition mount (json : Json) (storage : gmap string string)
    : list string * option (AppState * gmap string string) :=
  match loadEffect json storage initial with
  | (log, Some st) =>
      (log, Some (st, saveEffect json st (saveEffect json initial storage)))
  | (log, None) => (log, None)
  end.

Definition handleImageGenerated (newImage : GeneratedImage) (st : AppState)
    : AppState :=
  {| currentView := editor;
     images := newImage :: images st;
     selectedImage := Some newImage |}.

Definition handleSelectImage (image : GeneratedImage) (st : AppState)
    : AppState :=
  {| currentView := editor;
     images := images st;
     selectedImage := Some image |}.

Definition handleDeleteImage (id0 : string) (st : AppState) : AppState :=
  let kept := filter (fun img => id img <> id0) (images st) in
  match selectedImage st with
  | Some sel =>
      if decide (id sel = id0)
      then {| currentView := gallery; images := kept; selectedImage := None |}
      else {| currentView := currentView st; images := kept;
              selectedImage := selectedImage st |}
  | None =>
      {| currentView := currentView st; images := kept;
         selectedImage := selectedImage st |}
  end.

End App.

(** ** components/Generator.tsx *)

Module Generator.
Import Js Types GeminiService App.

(** The component's state. *)
Record State := {
  prompt : string;
  aspectRatio : AspectRatio;
  loading : bool;
  error : option string
}.

Definition initial : State :=
  {| prompt := ""; aspectRatio := R1_1; loading := false; error := None |}.

(** [handleGenerate], from the submit to the resolution of the request.
    [uuid] and [now] are what [uuidv4()] and [Date.now()] return; [g] is the
    component's state when the form is submitted and [app] the state of
    [App] when the request resolves. *)
Definition handleGenerate (env : Env) (uuid : string) (now : Z)
    (g : State) (app : AppState) : list Event * State * AppState :=
  if negb (truthy (trim (prompt g))) then ([], g, app)
  else
    match generateImageWithGemini env (prompt g) (aspectRatio g) with
    | (t, Ok imageUrl) =>
        let newImage :=
          {| id := uuid;
             url := imageUrl;
             Types.prompt := prompt g;
             Types.aspectRatio := ratio_string (aspectRatio g);
             timestamp := now;
             model := "gemini-2.5-flash-image";
             parentId := None |} in
        (t,
         {| prompt := ""; aspectRatio := aspectRatio g;
            loading := false; error := None |},
         handleImageGenerated newImage app)
    | (t, Throw message) =>
        (t,
         {| prompt := prompt g; aspectRatio := aspectRatio g;
            loading := false;
            error := Some (or_default message
                     "Something went wrong while generating the image.") |},
         app)
    end.

End Generator.

(** ** components/Editor.tsx *)

Module Editor.
Import Js Types GeminiService App.

(** The part of the component's state the AI edit uses. *)
Record State := {
  editPrompt : string;
  isProcessing : bool;
  error : option string
}.

(** Step (c) of the walk up: the record [curr.parentId] resolves to. *)
Definition find_parent (allImages : list GeneratedImage)
    (curr : GeneratedImage) : option GeneratedImage :=
  match parentId curr with
  | Some pid =>
      if truthy pid
      then List.find (fun img => bool_decide (id img = pid)) allImages
      else None
  | None => None
  end.

(** The loop [while (curr)]: one unit of [fuel] pays for one record added to
    [lineage]; [None] is a walk that ran out of fuel. *)
Fixpoint trace_parents (fuel : nat) (allImages : list GeneratedImage)
    (curr : option GeneratedImage) (visited : gset string)
    (lineage : list GeneratedImage)
    : option (gset string * list GeneratedImage) :=
  match curr with
  | None => Some (visited, lineage)
  | Some c =>
      if decide (id c ∈ visited) then Some (visited, lineage)
      else
        match fuel with
        | O => None
        | S fuel' =>
            trace_parents fuel' allImages (find_parent allImages c)
              ({[id c]} ∪ visited) (c :: lineage)
        end
  end.

(** [lineage.sort((a, b) => a.timestamp - b.timestamp)]: a stable sort. *)
Fixpoint insert_by_timestamp (x : GeneratedImage) (l : list GeneratedImage)
    : list GeneratedImage :=
  match l with
  | [] => [x]
  | y :: l' =>
      if (timestamp x <=? timestamp y)%Z then x :: y :: l'
      else y :: insert_by_timestamp x l'
  end.

Definition sort_by_timestamp (l : list GeneratedImage) : list GeneratedImage :=
  foldr insert_by_timestamp [] l.

(** [historyLineage]: the chain of parents of [image], then the children of
    [image] that the chain does not hold, sorted by timestamp. *)
Definition historyLineage (image : GeneratedImage)
    (allImages : list GeneratedImage) : option (list GeneratedImage) :=
  match trace_parents (S (List.length allImages)) allImages (Some image) ∅ [] with
  | Some (visited, lineage) =>
      let children :=
        filter (fun img => parentId img = Some (id image)) allImages in
      Some (sort_by_timestamp
              (lineage ++ filter (fun child => id child ∉ visited) children)%list)
  | None => None
  end.

(** [handleAiEdit], from the click to the resolution of the request.
    [canvas] is [canvasRef.current.toDataURL('image/png')] when the canvas is
    mounted, [image] the component's [image] prop. *)
Definition handleAiEdit (env : Env) (canvas : option string) (uuid : string)
    (now : Z) (image : GeneratedImage) (e : State) (app : AppState)
    : list Event * State * AppState :=
  if negb (truthy (trim (editPrompt e))) then ([], e, app)
  else
    let sourceImage := default (url image) canvas in
    match editImageWithGemini env sourceImage (editPrompt e) with
    | (t, Ok newImageUrl) =>
        let newImage :=
          {| id := uuid;
             url := newImageUrl;
             prompt := "Edit: " ++ editPrompt e;
             aspectRatio := aspectRatio image;
             timestamp := now;
             model := "gemini-2.5-flash-image";
             parentId := Some (id image) |} in
        (t,
         {| editPrompt := ""; isProcessing := false; error := None |},
         handleImageGenerated newImage app)
    | (t, Throw message) =>
        (t,
         {| editPrompt := editPrompt e; isProcessing := false;
            error := Some (or_default message "Failed to edit image") |},
         app)
    end.

End Editor.

(** ** unnamed/part_000: the editor before the history view *)

Module EditorLegacy.
Import Js Types GeminiService App.

Record State := {
  editPrompt : string;
  isProcessing : bool;
  error : option string
}.

Definition dquote : string := String (ascii_of_nat 34) EmptyString.

(** [handleAiEdit] of this revision.  [newId] is what [generateId()]
    returns, two base-36 renderings of [Math.random()] glued together. *)
Definition handleAiEdit (env : Env) (newId : string) (now : Z)
    (image : GeneratedImage) (e : State) (app : AppState)
    : list Event * State * AppState :=
  if negb (truthy (trim (editPrompt e))) then ([], e, app)
  else
    match editImageWithGemini env (url image) (editPrompt e) with
    | (t, Ok newImageUrl) =>
        let newImage :=
          {| id := newId;
             url := newImageUrl;
             prompt := "Edit of " ++ dquote ++ prompt image ++ dquote
                         ++ ": " ++ editPrompt e;
             aspectRatio := aspectRatio image;
             timestamp := now;
             model := "gemini-2.5-flash-image";
             parentId := None |} in
        (t,
         {| editPrompt := ""; isProcessing := false; error := None |},
         handleImageGenerated newImage app)
    | (t, Throw message) =>
        (t,
         {| editPrompt := editPrompt e; isProcessing := false;
            error := Some (or_default message "Failed to edit image") |},
         app)
    end.

End EditorLegacy.

(** ** The studio as a transition system over the state of [App] *)

Module Studio.
Import Js Types GeminiService App.

(** What the user can do.  The component state an action carries is the
    state of the mounted component when the handler starts; the identifiers
    and timestamps are what the browser returns during the handler. *)
Inductive Action :=
| Generate (g : Generator.State) (uuid : string) (now : Z)
| AiEdit (e : Editor.State) (canvas : option string) (uuid : string) (now : Z)
| AiEditLegacy (e : EditorLegacy.State) (newId : string) (now : Z)
| Select (i : nat)
| Delete (id0 : string)
| ViewChange (v : ViewMode).

(** One action on the state of [App].  The editor is rendered for the
    selected image only; the gallery offers the images of the store. *)
Definition step (env : Env) (a : Action) (st : AppState) : AppState :=
  match a with
  | Generate g uuid now => (Generator.handleGenerate env uuid now g st).2
  | AiEdit e canvas uuid now =>
      match selectedImage st with
      | Some image => (Editor.handleAiEdit env canvas uuid now image e st).2
      | None => st
      end
  | AiEditLegacy e newId now =>
      match selectedImage st with
      | Some image => (EditorLegacy.handleAiEdit env newId now image e st).2
      | None => st
      end
  | Select i =>
      match images st !! i with
      | Some image => handleSelectImage image st
      | None => st
      end
  | Delete id0 => handleDeleteImage id0 st
  | ViewChange v =>
      {| currentView := v; images := images st;
         selectedImage := selectedImage st |}
  end.

Definition run (env : Env) (acts : list Action) (st : AppState) : AppState :=
  foldl (fun s a => step env a s) st acts.

(** The identifier an action gives the record it may create. *)
Definition new_id (a : Action) : option string :=
  match a with
  | Generate _ uuid _ | AiEdit _ _ uuid _ | AiEditLegacy _ uuid _ => Some uuid
  | Select _ | Delete _ | ViewChange _ => None
  end.

(** Every identifier handed out during the run is new to the store it is
    appended to. *)
Fixpoint fresh_ids (env : Env) (acts : list Action) (st : AppState) : Prop :=
  match acts with
  | [] => True
  | a :: acts' =>
      match new_id a with
      | Some i => i ∉ id <$> images st
      | None => True
      end
      /\ fresh_ids env acts' (step env a st)
  end.

(** The ratio is one of the five of [ASPECT_RATIOS]. *)
Definition valid_ratio (img : GeneratedImage) : Prop :=
  aspectRatio img ∈ ratio_string <$> ASPECT_RATIOS.

(** The store and the selection hold records with enumerated ratios only. *)
Definition ratios_ok (st : AppState) : Prop :=
  Forall valid_ratio (images st) /\
  forall sel, selectedImage st = Some sel -> valid_ratio sel.

#[global] Instance valid_ratio_dec img : Decision (valid_ratio img).
Proof. unfold valid_ratio. apply _. Defined.

#[global] Instance fresh_ids_dec env acts st : Decision (fresh_ids env acts st).
Proof.
  revert st. induction acts as [|a acts IH]; intros st; simpl; [apply _|].
  destruct (new_id a); apply _.
Defined.

End Studio.


(** ** Concrete environments and records for the examples *)

Module Sample.
Import Js Types GeminiService App.

(** A response that carries one PNG. *)
Definition png_response : Response :=
  {| candidates := Some [
       {| content := Some
            {| parts := Some [
                 {| inlineData := Some
                      {| inl_data := Some "iVBORw0KGgo=";
                         inl_mimeType := Some "image/png" |} |} ] |} |} ] |}.

(** The messages of V8 for reading [message] of [undefined] and of [null]. *)
Definition v8_message (n : Nullish) : EngineText :=
  match n with
  | undefined =>
      {| first_char := "C";
         more_chars := "annot read properties of undefined (reading 'message')" |}
  | null =>
      {| first_char := "C";
         more_chars := "annot read properties of null (reading 'message')" |}
  end.

(** The remote model answers every request. *)
Definition online : Env :=
  {| API_KEY := Some "key"; generateContent := fun _ => Fulfilled png_response;
     typeErrorMessage := v8_message |}.

(** The remote model cannot be reached. *)
Definition offline : Env :=
  {| API_KEY := Some "key";
     generateContent := fun _ => Rejected (ThrownValue (Some "Failed to fetch"));
     typeErrorMessage := v8_message |}.

(** The remote call is rejected with [undefined]. *)
Definition aborted : Env :=
  {| API_KEY := Some "key";
     generateContent := fun _ => Rejected (ThrownNullish undefined);
     typeErrorMessage := v8_message |}.

Definition record (i : string) (t : Z) (p : option string) : GeneratedImage :=
  {| id := i; url := "data:image/png;base64,AAAA"; prompt := "a banana";
     aspectRatio := "1:1"; timestamp := t;
     model := "gemini-2.5-flash-image"; parentId := p |}.

Definition root : GeneratedImage := record "1" 10 None.
Definition middle : GeneratedImage := record "2" 20 (Some "1").
Definition leaf : GeneratedImage := record "3" 30 (Some "2").

(** A record that is not in the store but whose parent is. *)
Definition detached : GeneratedImage := record "9" 40 (Some "1").

(** Two records of a store that share one id, both children of [root]. *)
Definition twin_a : GeneratedImage := record "7" 50 (Some "1").
Definition twin_b : GeneratedImage := record "7" 60 (Some "1").

(** A [JSON.parse] that knows the texts of the empty array and of [null] and
    rejects the other texts the examples read: ["{oops"] and the empty text. *)
Definition json : Json :=
  {| parse := fun s =>
       if String.eqb s "[]" then ParsedImages []
       else if String.eqb s "null" then ParsedOther
       else if String.eqb s "" then ParseThrows (Some "Unexpected end of JSON input")
       else ParseThrows (Some "Unexpected token");
     stringify := fun _ => "[]" |}.

Definition form (p : string) : Generator.State :=
  {| Generator.prompt := p; Generator.aspectRatio := R16_9;
     Generator.loading := false; Generator.error := None |}.

Definition panel (p : string) : Editor.State :=
  {| Editor.editPrompt := p; Editor.isProcessing := false;
     Editor.error := None |}.

Definition old_panel (p : string) : EditorLegacy.State :=
  {| EditorLegacy.editPrompt := p; EditorLegacy.isProcessing := false;
     EditorLegacy.error := None |}.

Definition store (l : list GeneratedImage) (sel : option GeneratedImage)
    : AppState :=
  {| currentView := editor; images := l; selectedImage := sel |}.

(** No API key is configured. *)
Definition keyless : Env :=
  {| API_KEY := None; generateContent := fun _ => Fulfilled png_response;
     typeErrorMessage := v8_message |}.

(** The remote model answers with text only. *)
Definition wordy : Env :=
  {| API_KEY := Some "key";
     generateContent := fun _ =>
       Fulfilled {| candidates := Some [
               {| content := Some
                    {| parts := Some [ {| inlineData := None |} ] |} |} ] |};
     typeErrorMessage := v8_message |}.

(** A [JSON.stringify] and [JSON.parse] pair that knows two documents: the
    store that holds [root] alone, and the empty store. *)
Definition quoted (s : string) : string :=
  String (ascii_of_nat 34) s ++ String (ascii_of_nat 34) EmptyString.

Definition root_text : string :=
  "[{" ++ quoted "id" ++ ":" ++ quoted "1" ++ ","
       ++ quoted "url" ++ ":" ++ quoted "data:image/png;base64,AAAA" ++ ","
       ++ quoted "prompt" ++ ":" ++ quoted "a banana" ++ ","
       ++ quoted "aspectRatio" ++ ":" ++ quoted "1:1" ++ ","
       ++ quoted "timestamp" ++ ":10,"
       ++ quoted "model" ++ ":" ++ quoted "gemini-2.5-flash-image" ++ "}]".

Definition json_root : Json :=
  {| parse := fun s =>
       if String.eqb s root_text then ParsedImages [root]
       else if String.eqb s "[]" then ParsedImages []
       else ParseThrows (Some "Unexpected token");
     stringify := fun l =>
       if decide (l = [root]) then root_text else "[]" |}.

(** A record with a ratio that is none of the five, the text of the store
    that holds it alone, and a [JSON.parse] that knows this text. *)
Definition wide : GeneratedImage :=
  {| id := "w"; url := "data:image/png;base64,AAAA"; prompt := "a panorama";
     aspectRatio := "2:1"; timestamp := 5;
     model := "gemini-2.5-flash-image"; parentId := None |}.

Definition wide_text : string :=
  "[{" ++ quoted "id" ++ ":" ++ quoted "w" ++ ","
       ++ quoted "url" ++ ":" ++ quoted "data:image/png;base64,AAAA" ++ ","
       ++ quoted "prompt" ++ ":" ++ quoted "a panorama" ++ ","
       ++ quoted "aspectRatio" ++ ":" ++ quoted "2:1" ++ ","
       ++ quoted "timestamp" ++ ":5,"
       ++ quoted "model" ++ ":" ++ quoted "gemini-2.5-flash-image" ++ "}]".

Definition json_wide : Json :=
  {| parse := fun s =>
       if String.eqb s wide_text then ParsedImages [wide]
       else ParseThrows (Some "Unexpected token");
     stringify := fun l =>
       if decide (l = [wide]) then wide_text else "[]" |}.

(** Parts of a response: text only, an image without data, an image
    without a type, a PNG. *)
Definition text_part : Part := {| inlineData := None |}.

Definition empty_part : Part :=
  {| inlineData := Some {| inl_data := Some ""; inl_mimeType := Some "image/png" |} |}.

Definition bare_data : InlineData :=
  {| inl_data := Some "R0lGODlh"; inl_mimeType := None |}.

Definition png_part : Part :=
  {| inlineData := Some
       {| inl_data := Some "iVBORw0KGgo="; inl_mimeType := Some "image/png" |} |}.

End Sample.

(** The records of the store that a walk up the parents has not visited. *)
Abbreviation unvisited visited allImages :=
  (filter (fun img : Types.GeneratedImage => Types.id img ∉ (visited : gset string))
     allImages).

(** ** Predicates and values of the further properties *)

(** A part the loop of [extractImageFromResponse] passes over: it has no
    [inlineData], or no data or empty data in it. *)
Definition no_image_data (p : GeminiService.Part) : Prop :=
  match GeminiService.inlineData p with
  | Some d => Js.truthy_opt (GeminiService.inl_data d) = false
  | None => True
  end.


(** [ancestor allImages c p]: [p] is reached from [c] by following
    [parentId] through the store, one resolved parent after the other. *)
Inductive ancestor (allImages : list Types.GeneratedImage)
  : Types.GeneratedImage -> Types.GeneratedImage -> Prop :=
| ancestor_parent c p :
    Editor.find_parent allImages c = Some p -> ancestor allImages c p
| ancestor_further c p q :
    Editor.find_parent allImages c = Some p ->
    ancestor allImages p q -> ancestor allImages c q.




(** The timestamp an action gives the record it may create. *)
Definition new_time (a : Studio.Action) : option Z :=
  match a with
  | Studio.Generate _ _ now | Studio.AiEdit _ _ _ now
  | Studio.AiEditLegacy _ _ now => Some now
  | Studio.Select _ | Studio.Delete _ | Studio.ViewChange _ => None
  end.

(** The clock does not run backwards during the run: what [Date.now()]
    returns for an action is no earlier than the timestamps of the store. *)
Fixpoint clock_runs_forward (env : GeminiService.Env)
    (acts : list Studio.Action) (st : App.AppState) : Prop :=
  match acts with
  | [] => True
  | a :: acts' =>
      match new_time a with
      | Some now => Forall (fun r => (Types.timestamp r <= now)%Z) (App.images st)
      | None => True
      end
      /\ clock_runs_forward env acts' (Studio.step env a st)
  end.

(** Newest first: every record is no older than the records after it. *)
Definition newest_first (l : list Types.GeneratedImage) : Prop :=
  StronglySorted (fun a b => (Types.timestamp b <= Types.timestamp a)%Z) l.
(** * Properties *)

Import Js Types GeminiService App.

#[local] Arguments String.append !_ _ / : simpl nomatch.

(** ** Strings *)

Lemma trimEnd_empty_iff s :
  trimEnd s = EmptyString <-> all_chars isWhiteSpace s = true.
Proof.
  induction s as [|c s IH]; simpl; [done|].
  destruct (trimEnd s) eqn:E.
  - destruct (isWhiteSpace c); simpl; [|done].
    split; [intros _; by apply IH|done].
  - split; [done|]. intros [_ H]%andb_prop. apply IH in H. done.
Qed.

Lemma trimStart_all_white s :
  all_chars isWhiteSpace s = true -> trimStart s = EmptyString.
Proof.
  induction s as [|c s IH]; simpl; [done|].
  intros [-> H]%andb_prop. by apply IH.
Qed.

Lemma all_chars_trimStart s :
  all_chars isWhiteSpace (trimStart s) = true -> all_chars isWhiteSpace s = true.
Proof.
  induction s as [|c s IH]; simpl; [done|].
  destruct (isWhiteSpace c) eqn:E; simpl; [done|].
  by rewrite E.
Qed.

(** A string trims to the empty string exactly when it is white space only. *)
Lemma trim_empty_iff s :
  trim s = EmptyString <-> all_chars isWhiteSpace s = true.
Proof.
  unfold trim. rewrite trimEnd_empty_iff. split.
  - apply all_chars_trimStart.
  - intros H. by rewrite (trimStart_all_white s H).
Qed.

Lemma truthy_false s : truthy s = false <-> s = EmptyString.
Proof. by destruct s. Qed.

Lemma strip_prefix_Some p s r : strip_prefix p s = Some r -> s = p ++ r.
Proof.
  revert s. induction p as [|a p IH]; intros [|b s]; simpl; try congruence.
  destruct (Ascii.eqb_spec a b) as [->|]; [|done].
  intros H. f_equal. by apply IH.
Qed.

Lemma strip_prefix_app p r : strip_prefix p (p ++ r) = Some r.
Proof.
  induction p as [|a p IH]; simpl; [done|].
  by rewrite Ascii.eqb_refl.
Qed.

(** ** The data URL matcher *)

Lemma split_last_sound s m d :
  split_last s = Some (m, d) -> s = m ++ SEP ++ d /\ d <> EmptyString.
Proof.
  revert m d. induction s as [|c s IH]; intros m d; [done|].
  cbn [split_last]. destruct (split_last s) as [[m' d']|] eqn:E.
  - intros [= <- <-]. destruct (IH _ _ eq_refl) as [-> ?]. done.
  - destruct (strip_prefix SEP (String c s)) as [d'|] eqn:P; [|done].
    destruct d' as [|x d']; simpl; [done|].
    intros [= <- <-]. split; [|done].
    by apply strip_prefix_Some in P.
Qed.

Lemma split_last_complete m d :
  d <> EmptyString -> exists m' d', split_last (m ++ SEP ++ d) = Some (m', d').
Proof.
  intros Hd. induction m as [|c m [m' [d' IH]]].
  - change (EmptyString ++ SEP ++ d) with (String ";" ("base64," ++ d)).
    cbn [split_last]. destruct (split_last ("base64," ++ d)) as [[m' d']|]; [eauto|].
    change (String ";" ("base64," ++ d)) with (SEP ++ d).
    rewrite strip_prefix_app. destruct d; [done|]. simpl. eauto.
  - change (String c m ++ SEP ++ d) with (String c (m ++ SEP ++ d)).
    cbn [split_last]. rewrite IH. eauto.
Qed.

Lemma match_data_url_sound s m d :
  match_data_url s = Some (m, d) ->
  m <> EmptyString /\ d <> EmptyString /\ s = "data:" ++ m ++ ";base64," ++ d.
Proof.
  unfold match_data_url.
  destruct (strip_prefix "data:" s) as [[|c rest]|] eqn:P; try done.
  destruct (all_chars _ _); [|done].
  destruct (split_last rest) as [[m' d']|] eqn:E; [|done].
  intros [= <- <-]. apply split_last_sound in E as [-> ?].
  apply strip_prefix_Some in P. done.
Qed.

(** A string that is not of the shape [data:<mime>;base64,<data>], with
    both parts present, is not matched. *)
Lemma match_data_url_None_of_shape s :
  ~ (exists mime data,
       mime <> EmptyString /\ data <> EmptyString /\
       s = "data:" ++ mime ++ ";base64," ++ data) ->
  match_data_url s = None.
Proof.
  intros H. destruct (match_data_url s) as [[m d]|] eqn:E; [|done].
  destruct H. apply match_data_url_sound in E as (? & ? & ?). by exists m, d.
Qed.

(** Every string of the shape that holds no line terminator is matched. *)
Lemma match_data_url_complete mime data :
  mime <> EmptyString -> data <> EmptyString ->
  all_chars (fun a => negb (isLineTerminator a)) (mime ++ ";base64," ++ data) = true ->
  is_Some (match_data_url ("data:" ++ mime ++ ";base64," ++ data)).
Proof.
  intros Hm Hd Hall. unfold match_data_url. rewrite strip_prefix_app.
  destruct mime as [|c mime]; [done|].
  change (String c mime ++ ";base64," ++ data)
    with (String c (mime ++ SEP ++ data)) in *.
  cbv iota beta. rewrite Hall.
  destruct (split_last_complete mime data Hd) as (m' & d' & ->). eauto.
Qed.

(** ** The gateway *)



(** A gateway call never throws a value without a message. *)
Lemma generate_throws_message env p ar t e :
  generateImageWithGemini env p ar = (t, Throw e) -> is_Some e.
Proof.
  unfold generateImageWithGemini.
  destruct (truthy_opt (API_KEY env)); simpl; [|intros [= <- <-]; eauto].
  destruct (generateContent env _) as [resp|[n|e']]; simpl.
  - destruct (extractImageFromResponse resp); simpl; intros [= <- <-]; eauto.
  - intros [= <- <-]; eauto.
  - intros [= <- <-]; eauto.
Qed.

(** C8: [editImageWithGemini] throws, without any event and so before any
    remote call, for every source that is not of the shape
    [data:<mime>;base64,<data>]; with an API key configured the error is the
    invalid-format one. *)
Theorem edit_rejects_malformed_source env base64Image prompt :
  ~ (exists mime data,
       mime <> EmptyString /\ data <> EmptyString /\
       base64Image = "data:" ++ mime ++ ";base64," ++ data) ->
  exists msg,
    editImageWithGemini env base64Image prompt = ([], Throw (Some msg)) /\
    (truthy_opt (API_KEY env) = true ->
     msg = "Invalid image format. Expected data URL.").
Proof.
  intros H%match_data_url_None_of_shape. unfold editImageWithGemini.
  destruct (truthy_opt (API_KEY env)); simpl.
  - rewrite H. eauto.
  - eexists. split; [reflexivity|done].
Qed.

Lemma edit_rejects_malformed_source_witness :
  exists msg,
    editImageWithGemini Sample.online "hello" "make it blue"
      = ([], Throw (Some msg)) /\
    (truthy_opt (API_KEY Sample.online) = true ->
     msg = "Invalid image format. Expected data URL.").
Proof.
  apply (edit_rejects_malformed_source Sample.online "hello" "make it blue").
  intros (mime & data & _ & _ & H). simpl in H. discriminate H.
Defined.

(** ** The handlers *)

(** What a handler does to the store: nothing, or one record at the front. *)
Lemma handleGenerate_store env uuid now g app :
  let app' := (Generator.handleGenerate env uuid now g app).2 in
  app' = app \/
  exists imageUrl,
    app' = handleImageGenerated
             {| id := uuid; url := imageUrl; prompt := Generator.prompt g;
                aspectRatio := ratio_string (Generator.aspectRatio g);
                timestamp := now; model := "gemini-2.5-flash-image";
                parentId := None |} app.
Proof.
  unfold Generator.handleGenerate.
  destruct (negb _); [by left|].
  destruct (generateImageWithGemini _ _ _) as [t [u|e]]; simpl; eauto.
Qed.

Lemma handleAiEdit_store env canvas uuid now image e app :
  let app' := (Editor.handleAiEdit env canvas uuid now image e app).2 in
  app' = app \/
  exists newImageUrl,
    app' = handleImageGenerated
             {| id := uuid; url := newImageUrl;
                prompt := "Edit: " ++ Editor.editPrompt e;
                aspectRatio := aspectRatio image;
                timestamp := now; model := "gemini-2.5-flash-image";
                parentId := Some (id image) |} app.
Proof.
  unfold Editor.handleAiEdit.
  destruct (negb _); [by left|].
  destruct (editImageWithGemini _ _ _) as [t [u|m]]; simpl; eauto.
Qed.

Lemma legacy_handleAiEdit_store env newId now image e app :
  let app' := (EditorLegacy.handleAiEdit env newId now image e app).2 in
  app' = app \/
  exists newImageUrl p,
    app' = handleImageGenerated
             {| id := newId; url := newImageUrl; prompt := p;
                aspectRatio := aspectRatio image;
                timestamp := now; model := "gemini-2.5-flash-image";
                parentId := None |} app.
Proof.
  unfold EditorLegacy.handleAiEdit.
  destruct (negb _); [by left|].
  destruct (editImageWithGemini _ _ _) as [t [u|m]]; simpl; eauto.
Qed.

(** C10: a prompt that trims to the empty string makes the handler return
    at once, in the generation form and in the AI edit of either editor: no
    event (so no remote call), the component and the store as they were. *)
Theorem blank_prompt_is_ignored env uuid now app :
  (forall g, trim (Generator.prompt g) = EmptyString ->
     Generator.handleGenerate env uuid now g app = ([], g, app)) /\
  (forall canvas image e, trim (Editor.editPrompt e) = EmptyString ->
     Editor.handleAiEdit env canvas uuid now image e app = ([], e, app)) /\
  (forall image e, trim (EditorLegacy.editPrompt e) = EmptyString ->
     EditorLegacy.handleAiEdit env uuid now image e app = ([], e, app)).
Proof.
  repeat split; intros.
  - unfold Generator.handleGenerate. by rewrite H.
  - unfold Editor.handleAiEdit. by rewrite H.
  - unfold EditorLegacy.handleAiEdit. by rewrite H.
Qed.

Lemma blank_prompt_is_ignored_witness :
  Generator.handleGenerate Sample.online "u1" 1 (Sample.form "   ")
      (Sample.store [Sample.root] (Some Sample.root))
    = ([], Sample.form "   ", Sample.store [Sample.root] (Some Sample.root)) /\
  Editor.handleAiEdit Sample.online None "u1" 1 Sample.root (Sample.panel "  ")
      (Sample.store [Sample.root] (Some Sample.root))
    = ([], Sample.panel "  ", Sample.store [Sample.root] (Some Sample.root)).
Proof.
  destruct (blank_prompt_is_ignored Sample.online "u1" 1
              (Sample.store [Sample.root] (Some Sample.root))) as (Hg & He & _).
  split; [apply Hg | apply He]; reflexivity.
Defined.



(** ** The store *)

(** C6: [handleImageGenerated] puts the new record at the front of the
    store and keeps the records that were there, each one place further
    back; it does so whatever the id of the new record is, so that a record
    whose id the store already holds leaves the store with that id twice. *)
Theorem append_puts_record_in_front newImage st :
  let st' := handleImageGenerated newImage st in
  images st' = newImage :: images st /\
  images st' !! 0%nat = Some newImage /\
  (forall i, images st' !! S i = images st !! i) /\
  List.length (images st') = S (List.length (images st)) /\
  (id newImage ∈ id <$> images st -> ~ NoDup (id <$> images st')).
Proof.
  repeat split. simpl. intros Hin [Hn _]%NoDup_cons. by apply Hn.
Qed.

Lemma filter_other_ids_absent (l : list GeneratedImage) id0 :
  id0 ∉ id <$> l -> filter (fun img => id img <> id0) l = l.
Proof.
  induction l as [|r l IH]; [done|].
  rewrite fmap_cons, not_elem_of_cons. intros [H1 H2].
  rewrite filter_cons_True by done. f_equal. by apply IH.
Qed.

(** C5: [handleDeleteImage] keeps, in their order and as they are, exactly
    the records whose id differs from the one given: the store after it is a
    sublist of the store before, a record is in it exactly when it was in
    the store with another id, as many records are gone as had the id, the
    store is the same when no record has the id, and every record kept has
    the [parentId] it had. *)
Theorem delete_removes_matching_only id0 st :
  let st' := handleDeleteImage id0 st in
  sublist (images st') (images st) /\
  (forall r, r ∈ images st' <-> r ∈ images st /\ id r <> id0) /\
  (List.length (images st')
     + List.length (filter (fun r => id r = id0) (images st))
   = List.length (images st))%nat /\
  (id0 ∉ id <$> images st -> images st' = images st) /\
  (forall i r, images st !! i = Some r -> id r <> id0 ->
     exists j r', images st' !! j = Some r' /\ r' = r /\ parentId r' = parentId r).
Proof.
  assert (E : images (handleDeleteImage id0 st)
              = filter (fun img => id img <> id0) (images st)).
  { unfold handleDeleteImage. destruct (selectedImage st); [|done].
    by destruct (decide _). }
  cbv zeta. rewrite E. split; [|split; [|split; [|split]]].
  - apply sublist_filter.
  - intros r. rewrite list_elem_of_filter. tauto.
  - pose proof (Permutation_length
                  (filter_app_complement (fun r => id r = id0) (images st))) as L.
    rewrite length_app in L. lia.
  - apply filter_other_ids_absent.
  - intros i r Hi Hr.
    assert (r ∈ filter (fun img => id img <> id0) (images st)) as Hin.
    { apply list_elem_of_filter. split; [done|].
      apply list_elem_of_lookup. eauto. }
    apply list_elem_of_lookup in Hin as [j Hj]. by exists j, r.
Qed.

(** C3, as the code has it: when [localStorage] holds a text under the key
    of the store and [JSON.parse] throws on it, mounting [App] does not
    fail and the state, with the empty store, is the initial one; the
    failure is logged once.  A stored text that is empty is not handed to
    [JSON.parse] at all: the state is the initial one as well, and nothing
    is logged. *)
Theorem malformed_store_loads_empty json storage saved message :
  storage !! DB_KEY = Some saved ->
  parse json saved = ParseThrows message ->
  mount json storage
    = (if truthy saved then ["Failed to parse database"] else [],
       Some (App.initial, <[DB_KEY := stringify json []]> storage))
  /\ images App.initial = [].
Proof.
  intros Hs Hp. split; [|done].
  unfold mount, loadEffect. rewrite Hs.
  destruct (truthy saved); [rewrite Hp|];
    unfold saveEffect; simpl; by rewrite insert_insert_eq.
Qed.

Lemma malformed_store_loads_empty_witness :
  mount Sample.json {[DB_KEY := "{oops"]}
    = (if truthy "{oops" then ["Failed to parse database"] else [],
       Some (App.initial,
             <[DB_KEY := stringify Sample.json []]> {[DB_KEY := "{oops"]}))
  /\ images App.initial = [].
Proof.
  apply (malformed_store_loads_empty Sample.json {[DB_KEY := "{oops"]}
           "{oops" (Some "Unexpected token")).
  - apply lookup_singleton_eq.
  - reflexivity.
Defined.

(** The empty text is a stored value that [JSON.parse] would throw on, and
    mounting [App] over it logs nothing.  The text null is a stored value
    that [JSON.parse] accepts: mounting [App] over it logs nothing either,
    and [images] is no store afterwards. *)
Lemma empty_text_is_not_logged :
  ({[DB_KEY := ""]} : gmap string string) !! DB_KEY = Some "" /\
  parse Sample.json "" = ParseThrows (Some "Unexpected end of JSON input") /\
  mount Sample.json {[DB_KEY := ""]}
    = ([], Some (App.initial, <[DB_KEY := "[]"]> {[DB_KEY := ""]})) /\
  ([] : list string) <> ["Failed to parse database"] /\
  parse Sample.json "null" = ParsedOther /\
  mount Sample.json {[DB_KEY := "null"]} = ([], None).
Proof.
  split; [apply lookup_singleton_eq|]. split; [reflexivity|].
  split; [|split; [discriminate|split; [reflexivity|]]].
  - unfold mount, loadEffect. rewrite lookup_singleton_eq. simpl.
    unfold saveEffect. simpl. by rewrite insert_insert_eq.
  - unfold mount, loadEffect. by rewrite lookup_singleton_eq.
Qed.

(** C1: the record an edit of [components/Editor.tsx] appends has the id of
    the image it was edited from as its [parentId], and the record a
    generation appends has none; the record an edit of the earlier editor
    ([unnamed/part_000]) appends has none either, as its run on the image
    [Sample.root] shows. *)
Theorem created_record_parent env uuid now app :
  (forall canvas image e,
     let app' := (Editor.handleAiEdit env canvas uuid now image e app).2 in
     app' = app \/
     exists r, images app' = r :: images app /\ parentId r = Some (id image)) /\
  (forall g,
     let app' := (Generator.handleGenerate env uuid now g app).2 in
     app' = app \/
     exists r, images app' = r :: images app /\ parentId r = None) /\
  (forall image e,
     let app' := (EditorLegacy.handleAiEdit env uuid now image e app).2 in
     app' = app \/
     exists r, images app' = r :: images app /\ parentId r = None) /\
  (exists r,
     images (EditorLegacy.handleAiEdit Sample.online "u2" 2 Sample.root
               (Sample.old_panel "make it blue")
               (Sample.store [Sample.root] (Some Sample.root))).2
       = [r; Sample.root] /\
     id r = "u2" /\ parentId r = None /\ parentId r <> Some (id Sample.root)).
Proof.
  split; [|split; [|split]].
  - intros canvas image e.
    destruct (handleAiEdit_store env canvas uuid now image e app)
      as [?|[u ->]]; [by left|right]. eauto.
  - intros g.
    destruct (handleGenerate_store env uuid now g app)
      as [?|[u ->]]; [by left|right]. eauto.
  - intros image e.
    destruct (legacy_handleAiEdit_store env uuid now image e app)
      as [?|(u & p & ->)]; [by left|right]. eauto.
  - eexists. split; [reflexivity|]. done.
Qed.

(** ** Invariants of the studio *)

Import Studio.

Lemma valid_ratio_string r (img : GeneratedImage) :
  aspectRatio img = ratio_string r -> valid_ratio img.
Proof.
  unfold valid_ratio. intros ->. destruct r; simpl; set_solver.
Qed.

(** The three shapes of a step: the store is kept, one record is put in
    front, or the records with one id are deleted. *)
Lemma step_cases env a st :
  let st' := step env a st in
  (images st' = images st /\
   (selectedImage st' = selectedImage st \/
    exists r, r ∈ images st /\ selectedImage st' = Some r))
  \/ (exists r, st' = handleImageGenerated r st /\ new_id a = Some (id r) /\
        (valid_ratio r \/
         exists sel, selectedImage st = Some sel /\
                     aspectRatio r = aspectRatio sel))
  \/ (exists id0, st' = handleDeleteImage id0 st).
Proof.
  destruct a as [g uuid now|e canvas uuid now|e newId now|i|id0|v]; simpl.
  - destruct (handleGenerate_store env uuid now g st) as [->|[u ->]];
      [left; eauto|right; left].
    eexists. split; [reflexivity|]. split; [reflexivity|].
    left. by eapply valid_ratio_string.
  - destruct (selectedImage st) as [image|] eqn:Hsel; [|left; eauto].
    destruct (handleAiEdit_store env canvas uuid now image e st) as [->|[u ->]];
      [left; eauto|right; left].
    eexists. split; [reflexivity|]. split; [reflexivity|]. right. eauto.
  - destruct (selectedImage st) as [image|] eqn:Hsel; [|left; eauto].
    destruct (legacy_handleAiEdit_store env newId now image e st)
      as [->|(u & p & ->)]; [left; eauto|right; left].
    eexists. split; [reflexivity|]. split; [reflexivity|]. right. eauto.
  - destruct (images st !! i) as [image|] eqn:Hi; [|left; eauto].
    left. split; [done|]. right. exists image. split; [|done].
    apply list_elem_of_lookup. eauto.
  - right; right. eauto.
  - left. eauto.
Qed.

Lemma delete_selected id0 st sel :
  selectedImage (handleDeleteImage id0 st) = Some sel ->
  selectedImage st = Some sel.
Proof.
  unfold handleDeleteImage. destruct (selectedImage st) as [s|]; [|done].
  by destruct (decide _).
Qed.

Lemma delete_images id0 st :
  images (handleDeleteImage id0 st)
    = filter (fun img => id img <> id0) (images st).
Proof.
  unfold handleDeleteImage. destruct (selectedImage st); [|done].
  by destruct (decide _).
Qed.

Lemma step_ratios_ok env a st : ratios_ok st -> ratios_ok (step env a st).
Proof.
  intros [Hs Hsel].
  destruct (step_cases env a st)
    as [[E [E'|(r & Hr & E')]]|[(r & E & _ & Hv)|[id0 E]]].
  - split; [by rewrite E|]. intros sel. rewrite E'. apply Hsel.
  - split; [by rewrite E|]. intros sel. rewrite E'. intros [= <-].
    by eapply Forall_forall in Hs.
  - assert (valid_ratio r) as Hr.
    { destruct Hv as [?|(sel & Hsel' & Hr)]; [done|].
      unfold valid_ratio. rewrite Hr. by apply Hsel. }
    rewrite E. split; simpl; [by constructor|]. by intros sel [= <-].
  - rewrite E. split.
    + rewrite delete_images. rewrite Forall_forall in Hs |- *.
      intros x [_ Hx]%list_elem_of_filter. by apply Hs.
    + intros sel H%delete_selected. by apply Hsel.
Qed.

Lemma run_ratios_ok env acts st : ratios_ok st -> ratios_ok (run env acts st).
Proof.
  revert st. induction acts as [|a acts IH]; intros st H; [done|].
  apply IH. by apply step_ratios_ok.
Qed.

(** C7, as the code has it: the record a generation that succeeds appends
    has the ratio chosen in the form, one of [ASPECT_RATIOS]; the record an
    AI edit that succeeds appends, in either editor, has the [aspectRatio]
    of the image it was edited from (no handler offers another one); so the
    [aspectRatio] of every record is one of [ASPECT_RATIOS] in every state
    the studio reaches from its initial state, or from any state whose
    records have enumerated ratios.  A store that is loaded from
    [localStorage] is the parsed one, unchecked. *)
Theorem aspect_ratio_enumerated_and_inherited env :
  (forall acts, Forall valid_ratio (images (run env acts App.initial))) /\
  (forall acts st, ratios_ok st -> Forall valid_ratio (images (run env acts st))) /\
  (forall canvas uuid now image e app t newImageUrl,
     truthy (trim (Editor.editPrompt e)) = true ->
     editImageWithGemini env (default (url image) canvas) (Editor.editPrompt e)
       = (t, Ok newImageUrl) ->
     exists r,
       images (Editor.handleAiEdit env canvas uuid now image e app).2
         = r :: images app /\
       id r = uuid /\ url r = newImageUrl /\
       aspectRatio r = aspectRatio image) /\
  (forall newId now image e app t newImageUrl,
     truthy (trim (EditorLegacy.editPrompt e)) = true ->
     editImageWithGemini env (url image) (EditorLegacy.editPrompt e)
       = (t, Ok newImageUrl) ->
     exists r,
       images (EditorLegacy.handleAiEdit env newId now image e app).2
         = r :: images app /\
       id r = newId /\ url r = newImageUrl /\
       aspectRatio r = aspectRatio image) /\
  (forall uuid now g app t imageUrl,
     truthy (trim (Generator.prompt g)) = true ->
     generateImageWithGemini env (Generator.prompt g) (Generator.aspectRatio g)
       = (t, Ok imageUrl) ->
     exists r,
       images (Generator.handleGenerate env uuid now g app).2
         = r :: images app /\
       id r = uuid /\ url r = imageUrl /\
       aspectRatio r = ratio_string (Generator.aspectRatio g) /\
       valid_ratio r) /\
  (forall json storage saved parsed,
     storage !! DB_KEY = Some saved ->
     truthy saved = true ->
     parse json saved = ParsedImages parsed ->
     exists storage',
       mount json storage
         = ([], Some ({| currentView := generate; images := parsed;
                         selectedImage := None |}, storage'))).
Proof.
  split; [|split; [|split; [|split; [|split]]]].
  - intros acts. apply (run_ratios_ok env acts App.initial). split; [constructor|done].
  - intros acts st H. by apply run_ratios_ok.
  - intros canvas uuid now image e app t u Hp Hg.
    unfold Editor.handleAiEdit. rewrite Hp, Hg. simpl. by eexists.
  - intros newId now image e app t u Hp Hg.
    unfold EditorLegacy.handleAiEdit. rewrite Hp, Hg. simpl. by eexists.
  - intros uuid now g app t u Hp Hg.
    unfold Generator.handleGenerate. rewrite Hp, Hg. simpl.
    eexists. split; [reflexivity|]. split; [done|]. split; [done|].
    split; [done|]. by eapply valid_ratio_string.
  - intros json storage saved parsed Hs Ht Hp.
    unfold mount, loadEffect. rewrite Hs, Ht, Hp. by eexists.
Qed.

Lemma aspect_ratio_enumerated_and_inherited_witness :
  Forall valid_ratio
    (images (run Sample.online
               [Generate (Sample.form "a banana") "u1" 1;
                AiEdit (Sample.panel "make it blue") None "u2" 2]
               (Sample.store [Sample.root] (Some Sample.root)))) /\
  (exists r,
     images (Editor.handleAiEdit Sample.online None "u2" 2 Sample.root
               (Sample.panel "make it blue")
               (Sample.store [Sample.root] (Some Sample.root))).2
       = [r; Sample.root] /\
     id r = "u2" /\ url r = "data:image/png;base64,iVBORw0KGgo=" /\
     aspectRatio r = "1:1") /\
  (exists r,
     images (Generator.handleGenerate Sample.online "u1" 1
               (Sample.form "a banana")
               (Sample.store [Sample.root] (Some Sample.root))).2
       = [r; Sample.root] /\
     id r = "u1" /\ url r = "data:image/png;base64,iVBORw0KGgo=" /\
     aspectRatio r = "16:9" /\ valid_ratio r).
Proof.
  destruct (aspect_ratio_enumerated_and_inherited Sample.online)
    as (_ & H & He & _ & Hg & _).
  split; [|split].
  - apply H. split.
    + repeat constructor.
    + intros sel [= <-]. repeat constructor.
  - edestruct (He None "u2" 2%Z Sample.root (Sample.panel "make it blue")
                 (Sample.store [Sample.root] (Some Sample.root)))
      as (r & H1 & H2 & H3 & H4); [reflexivity..|].
    exists r. split; [exact H1|]. split; [exact H2|]. split; [exact H3|exact H4].
  - edestruct (Hg "u1" 1%Z (Sample.form "a banana")
                 (Sample.store [Sample.root] (Some Sample.root)))
      as (r & H1 & H2 & H3 & H4 & H5); [reflexivity..|].
    exists r. split; [exact H1|]. split; [exact H2|]. split; [exact H3|].
    split; [exact H4|exact H5].
Defined.

(** A saved store that holds a record with the ratio 2:1 is loaded as it
    is: the store of the mounted studio holds a record whose ratio is none
    of the five. *)
Lemma loaded_ratio_is_unchecked :
  mount Sample.json_wide {[DB_KEY := Sample.wide_text]}
    = ([], Some ({| currentView := generate; images := [Sample.wide];
                    selectedImage := None |},
                 {[DB_KEY := Sample.wide_text]})) /\
  aspectRatio Sample.wide = "2:1" /\
  ~ valid_ratio Sample.wide.
Proof.
  split; [|split; [reflexivity|]].
  - unfold mount, loadEffect. rewrite lookup_singleton_eq.
    replace (truthy Sample.wide_text) with true by reflexivity.
    replace (parse Sample.json_wide Sample.wide_text)
      with (ParsedImages [Sample.wide]) by reflexivity.
    unfold saveEffect. cbn [images initial stringify Sample.json_wide].
    rewrite insert_insert_eq.
    replace (if decide ([Sample.wide] = [Sample.wide]) then Sample.wide_text else "[]")
      with Sample.wide_text by (by rewrite decide_True).
    by rewrite insert_singleton_eq.
  - unfold valid_ratio. simpl. rewrite !elem_of_cons, elem_of_nil.
    intros H. decompose [or] H; done.
Qed.

Lemma step_ids_unique env a st :
  NoDup (id <$> images st) ->
  match new_id a with Some i => i ∉ id <$> images st | None => True end ->
  NoDup (id <$> images (step env a st)).
Proof.
  intros Hnd Hfresh.
  destruct (step_cases env a st) as [[E _]|[(r & E & Hr & _)|[id0 E]]].
  - by rewrite E.
  - rewrite E. rewrite Hr in Hfresh. simpl. by apply NoDup_cons.
  - rewrite E, delete_images.
    apply (sublist_NoDup _ (id <$> images st)); [done|].
    apply fmap_sublist, sublist_filter.
Qed.

(** C9, as the store keeps it: when the ids of the store are pairwise
    different and every id handed out during a run of generations, edits and
    deletions is new to the store it is appended to, the ids of the store
    are pairwise different after the run. *)
Theorem ids_stay_unique_when_fresh env acts st :
  NoDup (id <$> images st) ->
  fresh_ids env acts st ->
  NoDup (id <$> images (run env acts st)).
Proof.
  revert st. induction acts as [|a acts IH]; intros st Hnd Hf; [done|].
  destruct Hf as [Ha Hf]. apply IH; [|done]. by apply step_ids_unique.
Qed.

Lemma ids_stay_unique_when_fresh_witness :
  NoDup (id <$> images (run Sample.online
                          [Generate (Sample.form "a banana") "u1" 1;
                           AiEdit (Sample.panel "make it blue") None "u2" 2;
                           Delete "u1"]
                          App.initial)).
Proof.
  apply (ids_stay_unique_when_fresh Sample.online).
  - constructor.
  - simpl. split; [apply not_elem_of_nil|].
    split; [|done]. by intros [= ]%list_elem_of_singleton.
Defined.

(** The store takes a record whose id it already holds.  [generateId()] of
    the earlier editor is [ii] whenever [Math.random()] returns one half
    ("0.i" in base 36) on both of its calls; two edits that are handed this
    id leave two records with it. *)
Lemma duplicate_id_is_accepted :
  id <$> images (run Sample.online
                   [Generate (Sample.form "a banana") "u1" 1;
                    AiEditLegacy (Sample.old_panel "make it blue") "ii" 2;
                    AiEditLegacy (Sample.old_panel "add a hat") "ii" 3]
                   App.initial)
    = ["ii"; "ii"; "u1"]
  /\ ~ NoDup ["ii"; "ii"; "u1"].
Proof.
  split; [reflexivity|].
  intros [H _]%NoDup_cons. apply H. rewrite elem_of_cons. by left.
Qed.

(** ** The lineage of an image *)

Lemma insert_by_timestamp_perm x l :
  Editor.insert_by_timestamp x l ≡ₚ x :: l.
Proof.
  induction l as [|y l IH]; simpl; [done|].
  destruct (timestamp x <=? timestamp y)%Z; [done|].
  rewrite IH. apply Permutation_swap.
Qed.

(** Sorting moves records, it neither adds nor drops one. *)
Lemma sort_by_timestamp_perm l : Editor.sort_by_timestamp l ≡ₚ l.
Proof.
  induction l as [|x l IH]; simpl; [done|].
  rewrite insert_by_timestamp_perm. by rewrite IH.
Qed.

Lemma insert_by_timestamp_sorted x l :
  Sorted (fun a b => (timestamp a <= timestamp b)%Z) l ->
  Sorted (fun a b => (timestamp a <= timestamp b)%Z)
    (Editor.insert_by_timestamp x l).
Proof.
  induction 1 as [|y l Hs IH Hy]; simpl; [repeat constructor|].
  destruct (Z.leb_spec (timestamp x) (timestamp y)).
  - constructor; [by constructor|]. by constructor.
  - constructor; [done|].
    destruct Hy as [|z l' Hz]; simpl in *.
    + constructor. lia.
    + destruct (timestamp x <=? timestamp z)%Z; constructor; lia.
Qed.

(** The history is in the order of the timestamps. *)
Lemma sort_by_timestamp_sorted l :
  Sorted (fun a b => (timestamp a <= timestamp b)%Z) (Editor.sort_by_timestamp l).
Proof.
  induction l as [|x l IH]; simpl; [constructor|].
  by apply insert_by_timestamp_sorted.
Qed.

(** A parent that resolves is a record of the store. *)
Lemma find_parent_in allImages c p :
  Editor.find_parent allImages c = Some p ->
  p ∈ allImages /\ parentId c = Some (id p).
Proof.
  unfold Editor.find_parent. destruct (parentId c) as [pid|]; [|done].
  destruct (truthy pid); [|done].
  intros [Hin Hp]%find_some. apply bool_decide_eq_true in Hp.
  split; [by apply list_elem_of_In|by rewrite Hp].
Qed.

Lemma unvisited_shrinks (allImages : list GeneratedImage) c (visited : gset string) :
  c ∈ allImages -> id c ∉ visited ->
  (List.length (unvisited ({[id c]} ∪ visited) allImages)
   < List.length (unvisited visited allImages))%nat.
Proof.
  intros Hin Hc.
  assert (E : unvisited ({[id c]} ∪ visited) allImages
              = filter (fun img => id img <> id c) (unvisited visited allImages)).
  { rewrite list_filter_filter. apply list_filter_iff. intros img.
    rewrite not_elem_of_union, elem_of_singleton. tauto. }
  rewrite E. apply (length_filter_lt _ _ c).
  - by apply list_elem_of_filter.
  - intros H. by apply H.
Qed.

(** The walk up ends: with as much fuel as the store has unvisited records
    it returns, when it starts at a record of the store or at none. *)
Lemma trace_parents_terminates fuel allImages curr visited lineage :
  (forall c, curr = Some c -> c ∈ allImages) ->
  (List.length (unvisited visited allImages) <= fuel)%nat ->
  is_Some (Editor.trace_parents fuel allImages curr visited lineage).
Proof.
  revert curr visited lineage.
  induction fuel as [|fuel IH]; intros curr visited lineage Hc Hf;
    (destruct curr as [c|]; simpl; [|by eauto]);
    (destruct (decide (id c ∈ visited)) as [|Hv]; [by eauto|]);
    pose proof (unvisited_shrinks allImages c visited (Hc c eq_refl) Hv).
  - lia.
  - apply IH; [|lia].
    intros p Hp. by apply find_parent_in in Hp as [? _].
Qed.

(** What the walk up returns: it puts records of the store in front of
    [lineage], with ids that are pairwise different and were not visited, and
    it has visited these ids besides those it started with. *)
Lemma trace_parents_spec fuel allImages curr visited lineage visited' lineage' :
  Editor.trace_parents fuel allImages curr visited lineage
    = Some (visited', lineage') ->
  (forall c, curr = Some c -> c ∈ allImages) ->
  exists anc,
    lineage' = (anc ++ lineage)%list /\
    Forall (fun r => r ∈ allImages) anc /\
    NoDup (id <$> anc) /\
    (forall i, i ∈ visited' <-> i ∈ id <$> anc \/ i ∈ visited) /\
    (forall i, i ∈ id <$> anc -> i ∉ visited).
Proof.
  revert curr visited lineage.
  induction fuel as [|fuel IH]; intros curr visited lineage H Hc;
    (destruct curr as [c|]; simpl in H;
     [destruct (decide (id c ∈ visited)) as [|Hv]|]);
    try (injection H as <- <-; exists []; simpl;
         split; [done|]; split; [constructor|]; split; [constructor|];
         split; [intros i; rewrite elem_of_nil; tauto
                |by intros i ?%elem_of_nil]).
  - done.
  - apply IH in H as (anc & -> & Hin & Hnd & Hvis & Hnew).
    + assert (Hfresh : forall i, i ∈ id <$> anc -> i <> id c /\ i ∉ visited).
      { intros i Hi. apply Hnew in Hi.
        rewrite not_elem_of_union, elem_of_singleton in Hi. tauto. }
      exists (anc ++ [c])%list. rewrite <- app_assoc. split; [done|].
      split; [apply Forall_app; split; [done|]; constructor; [|constructor];
              by apply Hc|].
      rewrite fmap_app. simpl.
      split; [apply NoDup_app; split; [done|]; split;
              [|apply NoDup_singleton]|].
      * intros i Hi ->%list_elem_of_singleton. by apply Hfresh in Hi as [? _].
      * split.
        -- intros i. rewrite Hvis, elem_of_app, list_elem_of_singleton.
           rewrite elem_of_union, elem_of_singleton. tauto.
        -- intros i [Hi| ->%list_elem_of_singleton]%elem_of_app; [|done].
           by apply Hfresh in Hi as [_ ?].
    + intros p Hp. by apply find_parent_in in Hp as [? _].
Qed.

(** The children the history adds: records of the store, not visited. *)
Lemma children_unvisited (allImages : list GeneratedImage) (visited : gset string) pid :
  filter (fun child => id child ∉ visited)
    (filter (fun img => parentId img = Some pid) allImages)
  = filter (fun img => parentId img = Some pid) (unvisited visited allImages).
Proof.
  rewrite !list_filter_filter. apply list_filter_iff. intros img. tauto.
Qed.

(** The history before it is sorted: the ancestors found in the store, the
    image, then its children that were not visited. *)
Lemma historyLineage_shape image allImages :
  exists anc (visited : gset string),
    Editor.historyLineage image allImages
      = Some (Editor.sort_by_timestamp
                (anc ++ [image]
                 ++ filter (fun img => parentId img = Some (id image))
                      (unvisited visited allImages))%list) /\
    Forall (fun r => r ∈ allImages) anc /\
    NoDup (id <$> (anc ++ [image])%list) /\
    (forall i, i ∈ visited <-> i ∈ id <$> (anc ++ [image])%list).
Proof.
  unfold Editor.historyLineage. cbn [Editor.trace_parents].
  destruct (decide (id image ∈ (∅ : gset string))) as [H|_];
    [by apply not_elem_of_empty in H|].
  assert (Hp : forall c, Editor.find_parent allImages image = Some c ->
                         c ∈ allImages).
  { intros p Hp. by apply find_parent_in in Hp as [? _]. }
  destruct (trace_parents_terminates (List.length allImages) allImages
              (Editor.find_parent allImages image) ({[id image]} ∪ ∅) [image] Hp)
    as [[visited lineage] E]; [apply length_filter|].
  rewrite E.
  apply trace_parents_spec in E as (anc & -> & Hin & Hnd & Hvis & Hnew); [|done].
  exists anc, visited. rewrite children_unvisited, <- app_assoc.
  split; [done|]. split; [done|].
  assert (Hself : id image ∉ id <$> anc).
  { intros Hi%Hnew. apply Hi. rewrite elem_of_union, elem_of_singleton. tauto. }
  rewrite fmap_app. simpl. split.
  - apply NoDup_app. split; [done|]. split; [|apply NoDup_singleton].
    by intros i Hi ->%list_elem_of_singleton.
  - intros i. rewrite Hvis, elem_of_app, list_elem_of_singleton.
    rewrite elem_of_union, elem_of_singleton, elem_of_empty. tauto.
Qed.

(** The ancestors and a record with the image's id are visited records of
    the store, so there are no more of them than such records. *)
Lemma visited_bound (allImages anc : list GeneratedImage) (visited : gset string) :
  NoDup anc ->
  (forall r, r ∈ anc -> r ∈ allImages /\ id r ∈ visited) ->
  (List.length anc + List.length (unvisited visited allImages)
   <= List.length allImages)%nat.
Proof.
  intros Hnd Hin.
  pose proof (Permutation_length
                (filter_app_complement (fun img => id img ∈ visited) allImages)) as L.
  rewrite length_app in L.
  assert (List.length anc
          <= List.length (filter (fun img => id img ∈ visited) allImages))%nat.
  { apply submseteq_length, NoDup_submseteq; [done|].
    intros r Hr. apply list_elem_of_filter. destruct (Hin r Hr). done. }
  lia.
Qed.

(** C2, as the code has it: for every image and every store the history is
    computed, holds the image itself, and has at least one record and at
    most one more than the store, and no more than the store when a record
    of the store has the image's id; when the ids of the store are pairwise
    different, so are the ids of the history. *)
Theorem lineage_contract image allImages :
  exists l,
    Editor.historyLineage image allImages = Some l /\
    image ∈ l /\
    (1 <= List.length l <= S (List.length allImages))%nat /\
    (id image ∈ id <$> allImages ->
     (List.length l <= List.length allImages)%nat) /\
    (NoDup (id <$> allImages) -> NoDup (id <$> l)).
Proof.
  destruct (historyLineage_shape image allImages)
    as (anc & visited & -> & Hin & Hnd & Hvis).
  set (kids := filter (fun img => parentId img = Some (id image))
                 (unvisited visited allImages)).
  eexists. split; [reflexivity|].
  rewrite sort_by_timestamp_perm.
  assert (Hkids : (List.length kids
                   <= List.length (unvisited visited allImages))%nat)
    by apply length_filter.
  assert (Hanc : forall r, r ∈ anc -> r ∈ allImages /\ id r ∈ visited).
  { intros r Hr. split; [by eapply Forall_forall in Hin|].
    apply Hvis. rewrite fmap_app, elem_of_app. left.
    by apply list_elem_of_fmap_2. }
  rewrite fmap_app in Hnd. apply NoDup_app in Hnd as (Hnd & Hself & _).
  split; [|split; [|split]].
  - rewrite !elem_of_app, list_elem_of_singleton. tauto.
  - rewrite !length_app. simpl.
    pose proof (visited_bound allImages anc visited
                  (NoDup_fmap_1 id anc Hnd) Hanc). lia.
  - intros (r0 & Hid & Hr0)%list_elem_of_fmap.
    rewrite !length_app. simpl.
    assert (Hnot : r0 ∉ anc).
    { intros Hr. apply (Hself (id r0)); [by apply list_elem_of_fmap_2|].
      rewrite <- Hid. simpl. apply list_elem_of_singleton. done. }
    pose proof (visited_bound allImages (r0 :: anc) visited) as B.
    simpl in B. apply Nat.le_trans with
      (S (List.length anc + List.length (unvisited visited allImages))); [lia|].
    apply B.
    + apply NoDup_cons. split; [done|]. by apply (NoDup_fmap_1 id).
    + intros r [->|Hr]%elem_of_cons; [|by apply Hanc].
      split; [done|]. apply Hvis. rewrite <- Hid, fmap_app, elem_of_app.
      right. simpl. by apply list_elem_of_singleton.
  - intros Huniq. rewrite !fmap_app. simpl.
    assert (Hk : forall i, i ∈ id <$> kids -> i ∉ visited).
    { intros i (r & -> & Hr)%list_elem_of_fmap.
      apply list_elem_of_filter in Hr as [_ Hr].
      by apply list_elem_of_filter in Hr as [? _]. }
    assert (Hkn : NoDup (id <$> kids)).
    { apply (sublist_NoDup _ (id <$> allImages)); [done|].
      apply fmap_sublist. etrans; apply sublist_filter. }
    apply NoDup_app. split; [done|]. split.
    + intros i Hi [->|Hc]%elem_of_cons.
      * by apply (Hself (id image)); [|apply list_elem_of_singleton].
      * apply (Hk i Hc). apply Hvis. rewrite fmap_app, elem_of_app. by left.
    + apply NoDup_cons. split; [|done].
      intros Hc. apply (Hk _ Hc). apply Hvis.
      rewrite fmap_app, elem_of_app. right. by apply list_elem_of_singleton.
Qed.

Lemma lineage_contract_witness :
  exists l,
    Editor.historyLineage Sample.middle [Sample.root; Sample.middle; Sample.leaf]
      = Some l /\
    Sample.middle ∈ l /\
    (1 <= List.length l <= 4)%nat /\
    (List.length l <= 3)%nat /\
    NoDup (id <$> l).
Proof.
  destruct (lineage_contract Sample.middle
              [Sample.root; Sample.middle; Sample.leaf])
    as (l & E & Hin & Hlen & Hle & Hnd).
  exists l. split; [done|]. split; [done|]. split; [done|]. split.
  - apply Hle. simpl. rewrite !elem_of_cons. tauto.
  - apply Hnd. simpl.
    repeat (apply NoDup_cons; split;
            [rewrite ?elem_of_cons, elem_of_nil; intros H;
             decompose [or] H; done|]).
    by apply NoDup_nil.
Defined.

(** The history of a record that is not in the store but whose parent is
    has more than one record and more records than the store; the history
    over a store in which two children share an id holds that id twice. *)
Lemma lineage_contract_counterexample :
  (Editor.historyLineage Sample.detached [Sample.root]
     = Some [Sample.root; Sample.detached] /\
   (Sample.detached ∉ [Sample.root]) /\
   ~ (List.length [Sample.root; Sample.detached]
      <= List.length [Sample.root])%nat /\
   List.length [Sample.root; Sample.detached] <> 1%nat) /\
  (Editor.historyLineage Sample.root [Sample.root; Sample.twin_a; Sample.twin_b]
     = Some [Sample.root; Sample.twin_a; Sample.twin_b] /\
   id <$> [Sample.root; Sample.twin_a; Sample.twin_b] = ["1"; "7"; "7"] /\
   ~ NoDup ["1"; "7"; "7"]).
Proof.
  split; [split; [|split; [|split]]|split; [|split]].
  - vm_compute. reflexivity.
  - intros [= ]%list_elem_of_singleton.
  - simpl. lia.
  - simpl. lia.
  - vm_compute. reflexivity.
  - reflexivity.
  - intros (_ & [H _]%NoDup_cons)%NoDup_cons. apply H.
    by apply list_elem_of_singleton.
Qed.

(** * Further properties of the code *)

(** ** services/geminiService.ts *)

Lemma or_default_nonempty o d : d <> EmptyString -> or_default o d <> EmptyString.
Proof.
  intros Hd. unfold or_default. destruct o as [s|]; [|done].
  destruct s; simpl; done.
Qed.

Lemma truthy_true s : truthy s = true <-> s <> EmptyString.
Proof. by destruct s. Qed.

(** What the loop over the parts returns is a data URL with both parts
    present. *)
Lemma first_image_shape ps u :
  first_image ps = Some u ->
  exists mime data,
    mime <> EmptyString /\ data <> EmptyString /\
    u = "data:" ++ mime ++ ";base64," ++ data.
Proof.
  induction ps as [|p ps IH]; simpl; [done|].
  destruct (inlineData p) as [d|]; [|done].
  destruct (inl_data d) as [s|] eqn:Hs; simpl; [|done].
  destruct (truthy s) eqn:Ht; [|done].
  intros [= <-]. exists (or_default (inl_mimeType d) "image/png"), s.
  split; [by apply or_default_nonempty|]. split; [by apply truthy_true|done].
Qed.

Lemma extract_Ok_first_image response u :
  extractImageFromResponse response = Ok u ->
  exists c rest ct ps,
    candidates response = Some (c :: rest) /\ content c = Some ct /\
    parts ct = Some ps /\ first_image ps = Some u.
Proof.
  unfold extractImageFromResponse.
  destruct (candidates response) as [[|c rest]|] eqn:Hc; try done.
  destruct (content c) as [ct|] eqn:Hct; [|done].
  destruct (parts ct) as [ps|] eqn:Hps; [|done].
  destruct (first_image ps) as [u'|] eqn:E; [|done].
  intros [= <-]. by exists c, rest, ct, ps.
Qed.

(** X1: [extractImageFromResponse] has two outcomes only: it returns a data
    URL [data:<mime>;base64,<data>] whose two parts are not empty, or it
    throws the error "No image data found in the response.". *)
Theorem extract_outcome response :
  (exists mime data,
     mime <> EmptyString /\ data <> EmptyString /\
     extractImageFromResponse response
       = Ok ("data:" ++ mime ++ ";base64," ++ data))
  \/ extractImageFromResponse response
       = Error "No image data found in the response.".
Proof.
  destruct (extractImageFromResponse response) as [u|e] eqn:E.
  - left. apply extract_Ok_first_image in E as (c & rest & ct & ps & _ & _ & _ & E).
    apply first_image_shape in E as (mime & data & ? & ? & ->). by exists mime, data.
  - right. revert E. unfold extractImageFromResponse.
    destruct (candidates response) as [[|c rest]|]; try done.
    destruct (content c) as [ct|]; [|done].
    destruct (parts ct) as [ps|]; [|done].
    by destruct (first_image ps).
Qed.

Lemma first_image_skip skipped ps :
  Forall no_image_data skipped ->
  first_image (skipped ++ ps)%list = first_image ps.
Proof.
  induction 1 as [|p skipped Hp _ IH]; simpl; [done|].
  unfold no_image_data in Hp. destruct (inlineData p) as [d|]; [|done].
  by rewrite Hp.
Qed.

(** X2: of the parts of the first candidate, the first one that carries
    data decides: the parts before it that have no [inlineData], or no data
    or empty data in it, are passed over, the parts after it are not looked
    at, and a missing or empty [mimeType] counts as [image/png]. *)
Theorem extract_takes_first_image skipped d data rest_parts rest_candidates :
  Forall no_image_data skipped ->
  inl_data d = Some data ->
  data <> EmptyString ->
  extractImageFromResponse
    {| candidates := Some (
         {| content := Some
              {| parts := Some (skipped ++ {| inlineData := Some d |} :: rest_parts)%list |} |}
         :: rest_candidates) |}
    = Ok ("data:" ++ or_default (inl_mimeType d) "image/png"
            ++ ";base64," ++ data).
Proof.
  intros Hs Hd Hne. unfold extractImageFromResponse. simpl.
  rewrite first_image_skip by done. simpl. rewrite Hd. simpl.
  apply truthy_true in Hne. by rewrite Hne.
Qed.

Lemma extract_takes_first_image_witness :
  extractImageFromResponse
    {| candidates := Some (
         {| content := Some
              {| parts := Some ([Sample.text_part; Sample.empty_part]
                                ++ {| inlineData := Some Sample.bare_data |}
                                :: [Sample.png_part])%list |} |}
         :: []) |}
    = Ok ("data:" ++ or_default (inl_mimeType Sample.bare_data) "image/png"
            ++ ";base64," ++ "R0lGODlh").
Proof.
  apply (extract_takes_first_image [Sample.text_part; Sample.empty_part]
           Sample.bare_data "R0lGODlh" [Sample.png_part] []).
  - repeat constructor.
  - reflexivity.
  - discriminate.
Defined.

Lemma all_chars_app p a b :
  all_chars p (a ++ b) = all_chars p a && all_chars p b.
Proof.
  induction a as [|c a IH]; simpl; [done|]. by rewrite IH, andb_assoc.
Qed.

Lemma split_last_no_semicolon s :
  all_chars (fun c => negb (Ascii.eqb c ";")) s = true -> split_last s = None.
Proof.
  induction s as [|c s IH]; [done|].
  cbn [all_chars split_last]. intros [Hc Hs]%andb_prop. rewrite (IH Hs).
  unfold SEP. cbn [strip_prefix]. rewrite Ascii.eqb_sym.
  by apply negb_true_iff in Hc as ->.
Qed.

Lemma split_last_exact m d :
  d <> EmptyString ->
  all_chars (fun c => negb (Ascii.eqb c ";")) d = true ->
  split_last (m ++ SEP ++ d) = Some (m, d).
Proof.
  intros Hd Hs. induction m as [|c m IH].
  - change (EmptyString ++ SEP ++ d) with (String ";" ("base64," ++ d)).
    cbn [split_last]. rewrite split_last_no_semicolon.
    + change (String ";" ("base64," ++ d)) with (SEP ++ d).
      rewrite strip_prefix_app. by destruct d.
    + by rewrite all_chars_app, Hs.
  - change (String c m ++ SEP ++ d) with (String c (m ++ SEP ++ d)).
    cbn [split_last]. by rewrite IH.
Qed.

(** X3: the format check of [editImageWithGemini] takes a data URL apart
    into the very parts [extractImageFromResponse] puts together: for a type
    and data that are not empty and hold no line terminator, and data
    without a semicolon (as base 64 is), matching
    [data:<mime>;base64,<data>] gives the groups [<mime>] and [<data>]. *)
Theorem data_url_round_trip mime data :
  mime <> EmptyString ->
  data <> EmptyString ->
  all_chars (fun a => negb (isLineTerminator a)) mime = true ->
  all_chars (fun a => negb (isLineTerminator a)) data = true ->
  all_chars (fun c => negb (Ascii.eqb c ";")) data = true ->
  match_data_url ("data:" ++ mime ++ ";base64," ++ data) = Some (mime, data).
Proof.
  intros Hm Hd Lm Ld Hs. unfold match_data_url. rewrite strip_prefix_app.
  destruct mime as [|c mime]; [done|].
  change (String c mime ++ ";base64," ++ data)
    with (String c (mime ++ SEP ++ data)).
  cbv iota beta.
  replace (all_chars _ (String c (mime ++ SEP ++ data))) with true.
  - by rewrite split_last_exact.
  - symmetry. change (String c (mime ++ SEP ++ data))
      with (String c mime ++ SEP ++ data).
    by rewrite !all_chars_app, Lm, Ld.
Qed.

Lemma data_url_round_trip_witness :
  match_data_url ("data:" ++ "image/png" ++ ";base64," ++ "iVBORw0KGgo=")
    = Some ("image/png", "iVBORw0KGgo=").
Proof.
  apply (data_url_round_trip "image/png" "iVBORw0KGgo="); reflexivity || discriminate.
Defined.

(** What a successful generation tells about the environment and the URL. *)
Lemma generate_Ok_inv env p ar t u :
  generateImageWithGemini env p ar = (t, Ok u) ->
  truthy_opt (API_KEY env) = true /\
  exists mime data,
    mime <> EmptyString /\ data <> EmptyString /\
    u = "data:" ++ mime ++ ";base64," ++ data.
Proof.
  unfold generateImageWithGemini.
  destruct (truthy_opt (API_KEY env)); simpl; [|done].
  destruct (generateContent env _) as [resp|[n|e]]; simpl; [|done..].
  destruct (extractImageFromResponse resp) as [u'|e] eqn:E; simpl; [|done].
  intros [= <- <-]. split; [done|].
  apply extract_Ok_first_image in E as (c & rest & ct & ps & _ & _ & _ & E).
  by apply first_image_shape in E.
Qed.

(** X4: an image the gateway generated passes the format check of an edit:
    when a generation returned a URL without line terminators, an edit of
    that URL in the same environment, with any instruction, reaches the
    remote model with exactly one request. *)
Theorem generated_image_is_editable env prompt ar t u instruction :
  generateImageWithGemini env prompt ar = (t, Ok u) ->
  all_chars (fun a => negb (isLineTerminator a)) u = true ->
  exists mime data,
    u = "data:" ++ mime ++ ";base64," ++ data /\
    remote_calls (editImageWithGemini env u instruction).1
      = [ {| req_model := "gemini-2.5-flash-image";
             req_parts := [InlineDataPart mime data; TextPart instruction];
             req_imageConfig := None |} ].
Proof.
  intros (Hkey & mime & data & Hm & Hd & ->)%generate_Ok_inv Hl.
  assert (Hl' : all_chars (fun a => negb (isLineTerminator a))
                  (mime ++ ";base64," ++ data) = true).
  { rewrite all_chars_app in Hl. by apply andb_prop in Hl as [_ ?]. }
  destruct (match_data_url_complete mime data Hm Hd Hl') as [[m d] E].
  pose proof (match_data_url_sound _ _ _ E) as (_ & _ & Hu).
  exists m, d. split; [done|].
  unfold editImageWithGemini. rewrite Hkey, E. simpl.
  destruct (generateContent env _) as [resp|[n|e]]; simpl; [|done..].
  by destruct (extractImageFromResponse resp).
Qed.

Lemma generated_image_is_editable_witness :
  exists mime data,
    "data:image/png;base64,iVBORw0KGgo="
      = "data:" ++ mime ++ ";base64," ++ data /\
    remote_calls (editImageWithGemini Sample.online
                    "data:image/png;base64,iVBORw0KGgo=" "add a hat").1
      = [ {| req_model := "gemini-2.5-flash-image";
             req_parts := [InlineDataPart mime data; TextPart "add a hat"];
             req_imageConfig := None |} ].
Proof.
  apply (generated_image_is_editable Sample.online "a banana" R1_1
           (generateImageWithGemini Sample.online "a banana" R1_1).1);
    reflexivity.
Defined.

Lemma extract_Ok_or_no_image response :
  (exists u, extractImageFromResponse response = Ok u) \/
  extractImageFromResponse response
    = Throw (Some "No image data found in the response.").
Proof.
  unfold extractImageFromResponse.
  destruct (candidates response) as [[|c rest]|]; try by right.
  destruct (content c) as [ct|]; [|by right].
  destruct (parts ct) as [ps|]; [|by right].
  destruct (first_image ps); [left; eauto|by right].
Qed.

(** X5: without an API key (none, or an empty one) nothing is sent: both
    gateway functions throw their "API Key is missing" error with no event
    at all, whatever their arguments, a source that is no data URL included,
    and a generation form with a prompt shows that error and leaves the
    state of [App] alone. *)
Theorem missing_api_key_sends_nothing env :
  truthy_opt (API_KEY env) = false ->
  (forall prompt ar,
     generateImageWithGemini env prompt ar
       = ([], Error "API Key is missing. Please configure your environment.")) /\
  (forall source instruction,
     editImageWithGemini env source instruction
       = ([], Error "API Key is missing.")) /\
  (forall uuid now g app,
     truthy (trim (Generator.prompt g)) = true ->
     Generator.handleGenerate env uuid now g app
       = ([],
          {| Generator.prompt := Generator.prompt g;
             Generator.aspectRatio := Generator.aspectRatio g;
             Generator.loading := false;
             Generator.error :=
               Some "API Key is missing. Please configure your environment." |},
          app)).
Proof.
  intros Hk. split; [|split].
  - intros. unfold generateImageWithGemini. by rewrite Hk.
  - intros. unfold editImageWithGemini. by rewrite Hk.
  - intros uuid now g app Hp. unfold Generator.handleGenerate.
    rewrite Hp. unfold generateImageWithGemini. by rewrite Hk.
Qed.

Lemma missing_api_key_sends_nothing_witness :
  generateImageWithGemini Sample.keyless "a banana" R1_1
    = ([], Error "API Key is missing. Please configure your environment.") /\
  editImageWithGemini Sample.keyless "no data URL" "add a hat"
    = ([], Error "API Key is missing.").
Proof.
  destruct (missing_api_key_sends_nothing Sample.keyless eq_refl) as (Hg & He & _).
  split; [apply Hg|apply He].
Defined.

(** X6: with an API key, a generation sends exactly one request, which
    holds the prompt as it is and the chosen ratio.  When the remote model
    answers with an image the URL is returned and nothing is logged; when it
    answers without one, the error "No image data found in the response."
    is thrown; when the call is rejected with a value, its message, or
    "Failed to generate image." when it has none; and when it is rejected
    with [undefined] or [null], the [TypeError] of reading its message.
    Every failure is logged once. *)
Theorem generate_with_key env prompt ar :
  truthy_opt (API_KEY env) = true ->
  let req := {| req_model := "gemini-2.5-flash-image";
                req_parts := [TextPart prompt];
                req_imageConfig := Some ar |} in
  match generateContent env req with
  | Fulfilled response =>
      match extractImageFromResponse response with
      | Ok u => generateImageWithGemini env prompt ar = ([RemoteCall req], Ok u)
      | Throw _ =>
          generateImageWithGemini env prompt ar
            = ([RemoteCall req; ConsoleError "Gemini API Error:"],
               Error "No image data found in the response.")
      end
  | Rejected (ThrownValue message) =>
      generateImageWithGemini env prompt ar
        = ([RemoteCall req; ConsoleError "Gemini API Error:"],
           Error (or_default message "Failed to generate image."))
  | Rejected (ThrownNullish n) =>
      generateImageWithGemini env prompt ar
        = ([RemoteCall req; ConsoleError "Gemini API Error:"],
           Error (text (typeErrorMessage env n)))
  end.
Proof.
  intros Hk req. unfold generateImageWithGemini. rewrite Hk. simpl. fold req.
  destruct (generateContent env req) as [response|[n|e]]; simpl; [|done..].
  destruct (extract_Ok_or_no_image response) as [[u ->]| ->]; done.
Qed.

Lemma generate_with_key_witness :
  generateImageWithGemini Sample.online "a banana" R16_9
    = ([RemoteCall {| req_model := "gemini-2.5-flash-image";
                      req_parts := [TextPart "a banana"];
                      req_imageConfig := Some R16_9 |}],
       Ok "data:image/png;base64,iVBORw0KGgo=") /\
  generateImageWithGemini Sample.wordy "a banana" R16_9
    = ([RemoteCall {| req_model := "gemini-2.5-flash-image";
                      req_parts := [TextPart "a banana"];
                      req_imageConfig := Some R16_9 |};
        ConsoleError "Gemini API Error:"],
       Error "No image data found in the response.") /\
  generateImageWithGemini Sample.offline "a banana" R16_9
    = ([RemoteCall {| req_model := "gemini-2.5-flash-image";
                      req_parts := [TextPart "a banana"];
                      req_imageConfig := Some R16_9 |};
        ConsoleError "Gemini API Error:"],
       Error "Failed to fetch") /\
  generateImageWithGemini Sample.aborted "a banana" R16_9
    = ([RemoteCall {| req_model := "gemini-2.5-flash-image";
                      req_parts := [TextPart "a banana"];
                      req_imageConfig := Some R16_9 |};
        ConsoleError "Gemini API Error:"],
       Error "Cannot read properties of undefined (reading 'message')").
Proof.
  split; [|split; [|split]].
  - exact (generate_with_key Sample.online "a banana" R16_9 eq_refl).
  - exact (generate_with_key Sample.wordy "a banana" R16_9 eq_refl).
  - exact (generate_with_key Sample.offline "a banana" R16_9 eq_refl).
  - exact (generate_with_key Sample.aborted "a banana" R16_9 eq_refl).
Defined.

(** X7: with an API key, an edit of a source the format check accepts sends
    exactly one request: the type and the data the source is made of, then
    the instruction, and no ratio.  The source is forwarded whole (the two
    groups put together again are the source), and the outcomes are those of
    a generation, with "Failed to edit image." for a call that is rejected
    with a value without a message, and the [TypeError] of reading the
    message for a call that is rejected with [undefined] or [null]. *)
Theorem edit_with_key env source instruction mime data :
  truthy_opt (API_KEY env) = true ->
  match_data_url source = Some (mime, data) ->
  let req := {| req_model := "gemini-2.5-flash-image";
                req_parts := [InlineDataPart mime data; TextPart instruction];
                req_imageConfig := None |} in
  source = "data:" ++ mime ++ ";base64," ++ data /\
  match generateContent env req with
  | Fulfilled response =>
      match extractImageFromResponse response with
      | Ok u => editImageWithGemini env source instruction = ([RemoteCall req], Ok u)
      | Throw _ =>
          editImageWithGemini env source instruction
            = ([RemoteCall req; ConsoleError "Gemini Edit Error:"],
               Error "No image data found in the response.")
      end
  | Rejected (ThrownValue message) =>
      editImageWithGemini env source instruction
        = ([RemoteCall req; ConsoleError "Gemini Edit Error:"],
           Error (or_default message "Failed to edit image."))
  | Rejected (ThrownNullish n) =>
      editImageWithGemini env source instruction
        = ([RemoteCall req; ConsoleError "Gemini Edit Error:"],
           Error (text (typeErrorMessage env n)))
  end.
Proof.
  intros Hk Hm req. split; [by apply match_data_url_sound in Hm as (_ & _ & ?)|].
  unfold editImageWithGemini. rewrite Hk, Hm. simpl. fold req.
  destruct (generateContent env req) as [response|[n|e]]; simpl; [|done..].
  destruct (extract_Ok_or_no_image response) as [[u ->]| ->]; done.
Qed.

Lemma edit_with_key_witness :
  ("data:image/png;base64,AAAA" = "data:" ++ "image/png" ++ ";base64," ++ "AAAA" /\
   editImageWithGemini Sample.offline "data:image/png;base64,AAAA" "add a hat"
     = ([RemoteCall {| req_model := "gemini-2.5-flash-image";
                       req_parts := [InlineDataPart "image/png" "AAAA";
                                     TextPart "add a hat"];
                       req_imageConfig := None |};
         ConsoleError "Gemini Edit Error:"],
        Error "Failed to fetch")) /\
  ("data:image/png;base64,AAAA" = "data:" ++ "image/png" ++ ";base64," ++ "AAAA" /\
   editImageWithGemini Sample.aborted "data:image/png;base64,AAAA" "add a hat"
     = ([RemoteCall {| req_model := "gemini-2.5-flash-image";
                       req_parts := [InlineDataPart "image/png" "AAAA";
                                     TextPart "add a hat"];
                       req_imageConfig := None |};
         ConsoleError "Gemini Edit Error:"],
        Error "Cannot read properties of undefined (reading 'message')")).
Proof.
  split.
  - exact (edit_with_key Sample.offline "data:image/png;base64,AAAA" "add a hat"
             "image/png" "AAAA" eq_refl eq_refl).
  - exact (edit_with_key Sample.aborted "data:image/png;base64,AAAA" "add a hat"
             "image/png" "AAAA" eq_refl eq_refl).
Defined.

Lemma edit_Throw_message env source instruction t e :
  editImageWithGemini env source instruction = (t, Throw e) ->
  exists msg, e = Some msg /\ msg <> EmptyString.
Proof.
  unfold editImageWithGemini.
  destruct (truthy_opt (API_KEY env)); simpl; [|intros [= <- <-]; by eexists].
  destruct (match_data_url source) as [[m d]|]; simpl;
    [|intros [= <- <-]; by eexists].
  destruct (generateContent env _) as [resp|[n|e']]; simpl.
  - destruct (extract_Ok_or_no_image resp) as [[u ->]| ->]; simpl; [done|].
    intros [= <- <-]. by eexists.
  - intros [= <- <-]. by eexists.
  - intros [= <- <-]. eexists. split; [done|]. by apply or_default_nonempty.
Qed.

Lemma generate_Throw_message env prompt ar t e :
  generateImageWithGemini env prompt ar = (t, Throw e) ->
  exists msg, e = Some msg /\ msg <> EmptyString.
Proof.
  unfold generateImageWithGemini.
  destruct (truthy_opt (API_KEY env)); simpl; [|intros [= <- <-]; by eexists].
  destruct (generateContent env _) as [resp|[n|e']]; simpl.
  - destruct (extract_Ok_or_no_image resp) as [[u ->]| ->]; simpl; [done|].
    intros [= <- <-]. by eexists.
  - intros [= <- <-]. by eexists.
  - intros [= <- <-]. eexists. split; [done|]. by apply or_default_nonempty.
Qed.

(** X8: a failure of the gateway always has a message that is not empty,
    and the handlers show it as it is: the fallback texts of the handlers
    ("Something went wrong while generating the image.", "Failed to edit
    image") are never what the user sees. *)
Theorem handlers_show_gateway_message env uuid now app t e :
  (forall g,
     truthy (trim (Generator.prompt g)) = true ->
     generateImageWithGemini env (Generator.prompt g) (Generator.aspectRatio g)
       = (t, Throw e) ->
     exists msg,
       e = Some msg /\ msg <> EmptyString /\
       Generator.error (Generator.handleGenerate env uuid now g app).1.2
         = Some msg) /\
  (forall canvas image ed,
     truthy (trim (Editor.editPrompt ed)) = true ->
     editImageWithGemini env (default (url image) canvas) (Editor.editPrompt ed)
       = (t, Throw e) ->
     exists msg,
       e = Some msg /\ msg <> EmptyString /\
       Editor.error (Editor.handleAiEdit env canvas uuid now image ed app).1.2
         = Some msg) /\
  (forall image ed,
     truthy (trim (EditorLegacy.editPrompt ed)) = true ->
     editImageWithGemini env (url image) (EditorLegacy.editPrompt ed)
       = (t, Throw e) ->
     exists msg,
       e = Some msg /\ msg <> EmptyString /\
       EditorLegacy.error (EditorLegacy.handleAiEdit env uuid now image ed app).1.2
         = Some msg).
Proof.
  split; [|split].
  - intros g Hp Hg.
    destruct (generate_Throw_message _ _ _ _ _ Hg) as (msg & -> & Hm).
    exists msg. split; [done|]. split; [done|].
    unfold Generator.handleGenerate. rewrite Hp, Hg. simpl.
    by destruct msg.
  - intros canvas image ed Hp Hg.
    destruct (edit_Throw_message _ _ _ _ _ Hg) as (msg & -> & Hm).
    exists msg. split; [done|]. split; [done|].
    unfold Editor.handleAiEdit. rewrite Hp, Hg. simpl.
    by destruct msg.
  - intros image ed Hp Hg.
    destruct (edit_Throw_message _ _ _ _ _ Hg) as (msg & -> & Hm).
    exists msg. split; [done|]. split; [done|].
    unfold EditorLegacy.handleAiEdit. rewrite Hp, Hg. simpl.
    by destruct msg.
Qed.

Lemma handlers_show_gateway_message_witness :
  exists msg,
    Some "Failed to fetch" = Some msg /\ msg <> EmptyString /\
    Editor.error
      (Editor.handleAiEdit Sample.offline None "u2" 2 Sample.root
         (Sample.panel "add a hat") (Sample.store [Sample.root] (Some Sample.root))).1.2
      = Some msg.
Proof.
  destruct (handlers_show_gateway_message Sample.offline "u2" 2
              (Sample.store [Sample.root] (Some Sample.root))
              (editImageWithGemini Sample.offline (url Sample.root) "add a hat").1
              (Some "Failed to fetch")) as (_ & He & _).
  apply (He None Sample.root (Sample.panel "add a hat")); reflexivity.
Defined.

(** ** components/Editor.tsx: the history *)

Lemma filter_none {A} (P : A -> Prop) `{forall x, Decision (P x)} (l : list A) :
  (forall x, x ∈ l -> ~ P x) -> filter P l = [].
Proof.
  induction l as [|x l IH]; intros Hl; [done|].
  rewrite filter_cons_False by (apply Hl; by left).
  apply IH. intros y Hy. apply Hl. by right.
Qed.

Lemma insert_by_timestamp_stable t x l :
  filter (fun r => timestamp r = t) (Editor.insert_by_timestamp x l)
  = filter (fun r => timestamp r = t) (x :: l).
Proof.
  induction l as [|y l IH]; simpl; [done|].
  destruct (Z.leb_spec (timestamp x) (timestamp y)) as [|Hlt]; [done|].
  rewrite (filter_cons _ y), IH, !(filter_cons _ x), (filter_cons _ y).
  destruct (decide (timestamp y = t)) as [Hy|]; [|done].
  destruct (decide (timestamp x = t)) as [Hx|]; [lia|done].
Qed.

(** X9: the sort of the history by timestamp keeps every record (the result
    is a permutation), puts them in ascending order of timestamp, every
    earlier entry being no younger than every later one, and is stable:
    records with the same timestamp stay in the order they had.  The history
    of an image is therefore in ascending order of timestamp. *)
Theorem history_sort_is_stable_and_ascending :
  (forall l, Editor.sort_by_timestamp l ≡ₚ l) /\
  (forall l, StronglySorted (fun a b => (timestamp a <= timestamp b)%Z)
               (Editor.sort_by_timestamp l)) /\
  (forall t l, filter (fun r => timestamp r = t) (Editor.sort_by_timestamp l)
               = filter (fun r => timestamp r = t) l) /\
  (forall image allImages, exists l,
     Editor.historyLineage image allImages = Some l /\
     StronglySorted (fun a b => (timestamp a <= timestamp b)%Z) l).
Proof.
  assert (Hs : forall l, StronglySorted (fun a b => (timestamp a <= timestamp b)%Z)
                 (Editor.sort_by_timestamp l)).
  { intros l. apply Sorted_StronglySorted; [|apply sort_by_timestamp_sorted].
    intros a b c ??. lia. }
  split; [apply sort_by_timestamp_perm|]. split; [done|]. split.
  - intros t l. induction l as [|x l IH]; [done|]. simpl.
    rewrite insert_by_timestamp_stable, !(filter_cons _ x), IH. done.
  - intros image allImages.
    destruct (historyLineage_shape image allImages) as (anc & v & -> & _).
    eexists. split; [reflexivity|]. apply Hs.
Qed.

(** Without a parent that resolves and without a child, the walk up stops
    at once and no child is added. *)
Lemma lone_image_history image allImages :
  Editor.find_parent allImages image = None ->
  (forall c, c ∈ allImages -> parentId c <> Some (id image)) ->
  Editor.historyLineage image allImages = Some [image].
Proof.
  intros Hp Hc. unfold Editor.historyLineage. cbn [Editor.trace_parents].
  destruct (decide (id image ∈ (∅ : gset string))) as [H|_];
    [by apply not_elem_of_empty in H|].
  rewrite Hp, (filter_none _ allImages) by done.
  by destruct (List.length allImages).
Qed.

(** X10: an image whose [parentId] is missing, empty or not the id of a
    record of the store, and that no record of the store names as its
    parent, has itself as its whole history; this is so for every image over
    the empty store, which is the store the editor is given when its
    [allImages] prop is left out. *)
Theorem history_of_lone_image image allImages :
  (parentId image = None \/ parentId image = Some EmptyString \/
   exists pid, parentId image = Some pid /\ pid ∉ id <$> allImages) ->
  (forall c, c ∈ allImages -> parentId c <> Some (id image)) ->
  Editor.historyLineage image allImages = Some [image].
Proof.
  intros Hp Hc. apply lone_image_history; [|done].
  unfold Editor.find_parent.
  destruct Hp as [->|[->|(pid & -> & Hpid)]]; [done..|].
  destruct (truthy pid); [|done].
  destruct (List.find _ allImages) as [p|] eqn:E; [|done].
  apply find_some in E as [Hin Hp%bool_decide_eq_true].
  destruct Hpid. rewrite <- Hp. by apply list_elem_of_fmap_2, list_elem_of_In.
Qed.

Lemma history_of_lone_image_witness :
  Editor.historyLineage Sample.detached [] = Some [Sample.detached] /\
  Editor.historyLineage Sample.root [Sample.root] = Some [Sample.root].
Proof.
  split.
  - apply (history_of_lone_image Sample.detached []).
    + right; right. exists "1". split; [reflexivity|]. apply not_elem_of_nil.
    + by intros c ?%elem_of_nil.
  - apply (history_of_lone_image Sample.root [Sample.root]); [by left|].
    by intros c ->%list_elem_of_singleton.
Defined.

(** X11: exactly one entry of the history has the id of the image, the
    image itself: the timeline highlights one entry, whatever the store. *)
Theorem history_highlights_one_entry image allImages :
  exists l,
    Editor.historyLineage image allImages = Some l /\
    filter (fun histImg => id histImg = id image) l = [image].
Proof.
  destruct (historyLineage_shape image allImages)
    as (anc & visited & -> & _ & Hnd & Hvis).
  eexists. split; [reflexivity|].
  apply Permutation_singleton_r. rewrite sort_by_timestamp_perm.
  rewrite fmap_app in Hnd. apply NoDup_app in Hnd as (_ & Hself & _).
  rewrite !filter_app.
  replace (filter (fun histImg => id histImg = id image) anc)
    with (@nil GeneratedImage).
  - rewrite filter_cons_True, filter_nil by done. simpl.
    replace (filter _ (filter _ (unvisited visited allImages)))
      with (@nil GeneratedImage); [done|].
    symmetry. apply filter_none.
    intros r [_ [Hr _]%list_elem_of_filter]%list_elem_of_filter Heq.
    apply Hr, Hvis. rewrite Heq, fmap_app, elem_of_app. right.
    by apply list_elem_of_singleton.
  - symmetry. apply filter_none.
    intros r Hr Heq. apply (Hself (id r)); [by apply list_elem_of_fmap_2|].
    rewrite Heq. by apply list_elem_of_singleton.
Qed.

(** The history is the sorted chain of the walk up followed by the children
    the walk has not visited. *)
Lemma historyLineage_unfold image allImages l :
  Editor.historyLineage image allImages = Some l ->
  exists (visited : gset string) chain,
    Editor.trace_parents (List.length allImages) allImages
      (Editor.find_parent allImages image) ({[id image]} ∪ ∅) [image]
      = Some (visited, chain) /\
    l = Editor.sort_by_timestamp
          (chain ++ filter (fun child => id child ∉ visited)
                      (filter (fun img => parentId img = Some (id image))
                         allImages))%list.
Proof.
  unfold Editor.historyLineage. cbn [Editor.trace_parents].
  destruct (decide (id image ∈ (∅ : gset string))) as [H|_];
    [by apply not_elem_of_empty in H|].
  destruct (Editor.trace_parents _ _ _ _ _) as [[visited chain]|]; [|done].
  intros [= <-]. by exists visited, chain.
Qed.

(** The records the walk up adds are the record it starts at and ancestors
    of that record. *)
Lemma trace_parents_members fuel allImages curr visited lineage visited' lineage' r :
  Editor.trace_parents fuel allImages curr visited lineage
    = Some (visited', lineage') ->
  r ∈ lineage' ->
  r ∈ lineage \/ curr = Some r \/
  exists c, curr = Some c /\ ancestor allImages c r.
Proof.
  revert curr visited lineage.
  induction fuel as [|fuel IH]; intros curr visited lineage H Hr;
    (destruct curr as [c|]; simpl in H;
     [destruct (decide (id c ∈ visited)) as [|Hv]|]);
    try (injection H as <- <-; by left).
  - done.
  - destruct (IH _ _ _ H Hr) as [[->|Hl]%elem_of_cons|[Hp|(p & Hp & Ha)]].
    + right; left. done.
    + by left.
    + right; right. exists c. split; [done|]. by apply ancestor_parent.
    + right; right. exists c. split; [done|]. by eapply ancestor_further.
Qed.

(** A record the walk up starts at and has not visited is in the chain. *)
Lemma trace_parents_head fuel allImages c visited lineage visited' lineage' :
  Editor.trace_parents fuel allImages (Some c) visited lineage
    = Some (visited', lineage') ->
  id c ∉ visited -> c ∈ lineage'.
Proof.
  intros H Hv. destruct fuel as [|fuel]; simpl in H;
    (destruct (decide (id c ∈ visited)); [done|]); [done|].
  apply trace_parents_spec in H as (anc & -> & _).
  - rewrite elem_of_app. right. by left.
  - intros p Hp. by apply find_parent_in in Hp as [? _].
Qed.

Lemma ancestor_in_store allImages c p : ancestor allImages c p -> p ∈ allImages.
Proof.
  induction 1 as [c p Hp|c p q Hp _ IH]; [|done].
  by apply find_parent_in in Hp as [? _].
Qed.

Lemma NoDup_id_inj (l : list GeneratedImage) x y :
  NoDup (id <$> l) -> x ∈ l -> y ∈ l -> id x = id y -> x = y.
Proof.
  induction l as [|z l IH]; [by intros _ ?%elem_of_nil|].
  rewrite fmap_cons. intros [Hz Hnd]%NoDup_cons [->|Hx]%elem_of_cons [->|Hy]%elem_of_cons E.
  - done.
  - destruct Hz. rewrite E. by apply list_elem_of_fmap_2.
  - destruct Hz. rewrite <- E. by apply list_elem_of_fmap_2.
  - by apply IH.
Qed.

(** What the history holds, and what it does not leave out. *)
Lemma history_facts image allImages l :
  Editor.historyLineage image allImages = Some l ->
  (forall r, r ∈ l ->
     r = image \/ ancestor allImages image r \/
     (r ∈ allImages /\ parentId r = Some (id image))) /\
  (forall p, Editor.find_parent allImages image = Some p ->
     id p <> id image -> p ∈ l) /\
  (forall c, c ∈ allImages -> parentId c = Some (id image) ->
     id c ∈ id <$> l).
Proof.
  intros (visited & chain & Ht & ->)%historyLineage_unfold.
  assert (Hfind : forall c, Editor.find_parent allImages image = Some c ->
                            c ∈ allImages).
  { intros p Hp. by apply find_parent_in in Hp as [? _]. }
  pose proof (trace_parents_spec _ _ _ _ _ _ _ Ht Hfind)
    as (anc & -> & _ & _ & Hvis & _).
  split; [|split].
  - intros r. rewrite sort_by_timestamp_perm, elem_of_app.
    intros [Hr|Hr].
    + destruct (trace_parents_members _ _ _ _ _ _ _ r Ht Hr)
        as [->%list_elem_of_singleton|[Hp|(p & Hp & Ha)]].
      * by left.
      * right; left. by apply ancestor_parent.
      * right; left. by eapply ancestor_further.
    + apply list_elem_of_filter in Hr as [_ Hr].
      apply list_elem_of_filter in Hr as [? ?]. right; right. done.
  - intros p Hp Hne. rewrite sort_by_timestamp_perm, elem_of_app. left.
    rewrite Hp in Ht. eapply trace_parents_head; [done|].
    rewrite not_elem_of_union, elem_of_singleton. split; [done|].
    apply not_elem_of_empty.
  - intros c Hc Hpc. rewrite sort_by_timestamp_perm, fmap_app, elem_of_app.
    destruct (decide (id c ∈ visited)) as [Hv|Hv].
    + apply Hvis in Hv as [Hv|Hv].
      * left. rewrite fmap_app, elem_of_app. by left.
      * left. rewrite fmap_app, elem_of_app. right.
        rewrite elem_of_union, elem_of_singleton, elem_of_empty in Hv.
        destruct Hv as [->|[]]. by apply list_elem_of_singleton.
    + right. apply list_elem_of_fmap_2.
      apply list_elem_of_filter. split; [done|]. by apply list_elem_of_filter.
Qed.

(** X12: the history holds nothing but the image, records of the store
    reached from it by following [parentId], and records of the store whose
    [parentId] is the id of the image: no sibling, no grandchild and no
    unrelated record is shown. *)
Theorem history_holds_relatives_only image allImages :
  exists l,
    Editor.historyLineage image allImages = Some l /\
    forall r, r ∈ l ->
      r = image \/
      (ancestor allImages image r /\ r ∈ allImages) \/
      (r ∈ allImages /\ parentId r = Some (id image)).
Proof.
  destruct (historyLineage_shape image allImages) as (anc & v & E & _).
  eexists. split; [exact E|].
  intros r Hr. destruct (history_facts _ _ _ E) as (H & _).
  destruct (H r Hr) as [?|[Ha|?]]; [by left| |by right; right].
  right; left. split; [done|]. by eapply ancestor_in_store.
Qed.

(** X13: the history leaves out no direct relative: it holds the record the
    [parentId] of the image resolves to (unless that record has the id of
    the image itself, where the walk stops), and for every record of the
    store whose [parentId] is the id of the image it holds a record with
    that id, the child itself when the image is in the store and the ids of
    the store are pairwise different. *)
Theorem history_holds_parent_and_children image allImages :
  exists l,
    Editor.historyLineage image allImages = Some l /\
    (forall p, Editor.find_parent allImages image = Some p ->
       id p <> id image -> p ∈ l) /\
    (forall c, c ∈ allImages -> parentId c = Some (id image) ->
       id c ∈ id <$> l) /\
    (NoDup (id <$> allImages) -> image ∈ allImages ->
     forall c, c ∈ allImages -> parentId c = Some (id image) -> c ∈ l).
Proof.
  destruct (historyLineage_shape image allImages) as (anc & v & E & _).
  eexists. split; [exact E|].
  destruct (history_facts _ _ _ E) as (Hm & Hp & Hc).
  split; [done|]. split; [done|].
  intros Hnd Hin c Hcin Hpc.
  specialize (Hc c Hcin Hpc). apply list_elem_of_fmap in Hc as (r & Hid & Hr).
  assert (r ∈ allImages) as Hrin.
  { destruct (Hm r Hr) as [->|[Ha|[? _]]]; [done| |done].
    by eapply ancestor_in_store. }
  by rewrite (NoDup_id_inj allImages c r Hnd Hcin Hrin Hid).
Qed.

Lemma history_holds_parent_and_children_witness :
  exists l,
    Editor.historyLineage Sample.middle [Sample.leaf; Sample.middle; Sample.root]
      = Some l /\
    Sample.root ∈ l /\ Sample.leaf ∈ l.
Proof.
  destruct (history_holds_parent_and_children Sample.middle
              [Sample.leaf; Sample.middle; Sample.root])
    as (l & E & Hp & _ & Hc).
  exists l. split; [exact E|]. split.
  - apply Hp; [reflexivity|discriminate].
  - apply Hc.
    + simpl. repeat (apply NoDup_cons; split;
        [rewrite ?elem_of_cons, elem_of_nil; intros H;
         decompose [or] H; done|]).
      by apply NoDup_nil.
    + rewrite !elem_of_cons. tauto.
    + rewrite !elem_of_cons. tauto.
    + reflexivity.
Defined.

(** In a store with pairwise different ids, looking an id up gives the
    record of the store that has it. *)
Lemma find_by_id_unique (allImages : list GeneratedImage) image :
  NoDup (id <$> allImages) -> image ∈ allImages ->
  List.find (fun img => bool_decide (id img = id image)) allImages = Some image.
Proof.
  induction allImages as [|x l IH]; [by intros _ ?%elem_of_nil|].
  rewrite fmap_cons. intros [Hx Hnd]%NoDup_cons [->|Hin]%elem_of_cons; simpl.
  - by rewrite bool_decide_eq_true_2.
  - rewrite bool_decide_eq_false_2; [by apply IH|].
    intros E. apply Hx. rewrite E. by apply list_elem_of_fmap_2.
Qed.

(** X14: the record of an AI edit that succeeds and the image it was edited
    from are in each other's history whenever the history is computed over
    the store.  When the image is in the store, the ids of the store are
    pairwise different, the id of the image is not the empty string and the
    new id is new to the store, the store gets the new record in front and
    selects it; [historyLineage] of the new record with the new store as
    [allImages] holds the image it was edited from, and [historyLineage] of
    that image with the new store holds the new record.  With the empty
    [allImages] the editor has when [App] renders it, the history of the new
    record is the new record alone. *)
Theorem edit_extends_history env canvas uuid now image ed app t newImageUrl :
  truthy (trim (Editor.editPrompt ed)) = true ->
  editImageWithGemini env (default (url image) canvas) (Editor.editPrompt ed)
    = (t, Ok newImageUrl) ->
  image ∈ images app ->
  NoDup (id <$> images app) ->
  uuid ∉ id <$> images app ->
  id image <> EmptyString ->
  let app' := (Editor.handleAiEdit env canvas uuid now image ed app).2 in
  exists newImage,
    images app' = newImage :: images app /\
    selectedImage app' = Some newImage /\
    id newImage = uuid /\
    (exists l, Editor.historyLineage newImage (images app') = Some l /\
               image ∈ l /\ newImage ∈ l) /\
    (exists l, Editor.historyLineage image (images app') = Some l /\
               newImage ∈ l /\ image ∈ l) /\
    Editor.historyLineage newImage [] = Some [newImage].
Proof.
  intros Hp Hg Hin Hnd Hfresh Hid app'.
  assert (Hne : uuid <> id image).
  { intros ->. apply Hfresh. by apply list_elem_of_fmap_2. }
  subst app'. unfold Editor.handleAiEdit. rewrite Hp, Hg. simpl.
  set (newImage := {| id := uuid; url := newImageUrl;
                      prompt := "Edit: " ++ Editor.editPrompt ed;
                      aspectRatio := aspectRatio image; timestamp := now;
                      model := "gemini-2.5-flash-image";
                      parentId := Some (id image) |}).
  exists newImage. split; [done|]. split; [done|]. split; [done|].
  assert (Hnd' : NoDup (id <$> newImage :: images app)).
  { rewrite fmap_cons. by apply NoDup_cons. }
  split; [|split].
  - destruct (historyLineage_shape newImage (newImage :: images app))
      as (anc & v & E & _ & _ & _).
    eexists. split; [exact E|].
    destruct (history_facts _ _ _ E) as (_ & Hparent & _). split.
    + apply Hparent; [|by apply not_eq_sym].
      unfold Editor.find_parent. simpl.
      apply truthy_true in Hid. rewrite Hid.
      rewrite bool_decide_eq_false_2 by done.
      by apply find_by_id_unique.
    + rewrite sort_by_timestamp_perm, !elem_of_app, list_elem_of_singleton. tauto.
  - destruct (historyLineage_shape image (newImage :: images app))
      as (anc & v & E & _).
    eexists. split; [exact E|].
    destruct (history_facts _ _ _ E) as (Hm & _ & Hc). split.
    + assert (id newImage ∈ id <$> Editor.sort_by_timestamp
                (anc ++ [image] ++ filter (fun img => parentId img = Some (id image))
                   (unvisited v (newImage :: images app)))%list) as Hi.
      { apply Hc; [by left|done]. }
      apply list_elem_of_fmap in Hi as (r & Hr & Hrl).
      assert (r ∈ newImage :: images app) as Hrin.
      { destruct (Hm r Hrl) as [->|[Ha|[? _]]]; [by right| |done].
        by eapply ancestor_in_store. }
      assert (newImage ∈ newImage :: images app) as Hnew by (by left).
      assert (r = newImage) as ->
        by (symmetry; exact (NoDup_id_inj _ newImage r Hnd' Hnew Hrin Hr)).
      done.
    + rewrite sort_by_timestamp_perm, !elem_of_app, list_elem_of_singleton. tauto.
  - apply lone_image_history; [|by intros c ?%elem_of_nil].
    unfold Editor.find_parent. simpl. by destruct (truthy (id image)).
Qed.

Lemma edit_extends_history_witness :
  exists newImage,
    images (Editor.handleAiEdit Sample.online None "u2" 20 Sample.root
              (Sample.panel "add a hat") (Sample.store [Sample.root] None)).2
      = newImage :: [Sample.root] /\
    id newImage = "u2" /\
    (exists l, Editor.historyLineage newImage (newImage :: [Sample.root]) = Some l /\
               Sample.root ∈ l /\ newImage ∈ l) /\
    (exists l, Editor.historyLineage Sample.root (newImage :: [Sample.root]) = Some l /\
               newImage ∈ l /\ Sample.root ∈ l) /\
    Editor.historyLineage newImage [] = Some [newImage].
Proof.
  destruct (edit_extends_history Sample.online None "u2" 20 Sample.root
              (Sample.panel "add a hat") (Sample.store [Sample.root] None)
              (editImageWithGemini Sample.online (url Sample.root) "add a hat").1
              "data:image/png;base64,iVBORw0KGgo=")
    as (newImage & E & _ & Hid & H1 & H2 & H3).
  - reflexivity.
  - reflexivity.
  - by apply list_elem_of_singleton.
  - simpl. apply NoDup_singleton.
  - simpl. by intros [= ]%list_elem_of_singleton.
  - discriminate.
  - exists newImage. rewrite E in H1, H2. done.
Defined.

(** ** App.tsx: the store, the selection and the views *)

Lemma delete_selected_id id0 st sel :
  selectedImage (handleDeleteImage id0 st) = Some sel ->
  selectedImage st = Some sel /\ id sel <> id0.
Proof.
  unfold handleDeleteImage. destruct (selectedImage st) as [s|]; [|done].
  destruct (decide (id s = id0)); [done|]. simpl. by intros [= <-].
Qed.







Lemma filter_ids_comm (l : list GeneratedImage) i j :
  filter (fun img => id img <> i) (filter (fun img => id img <> j) l)
  = filter (fun img => id img <> j) (filter (fun img => id img <> i) l).
Proof. rewrite !list_filter_filter. apply list_filter_iff. intros x. tauto. Qed.

Lemma filter_ids_idemp (l : list GeneratedImage) i :
  filter (fun img => id img <> i) (filter (fun img => id img <> i) l)
  = filter (fun img => id img <> i) l.
Proof. rewrite list_filter_filter. apply list_filter_iff. intros x. tauto. Qed.

(** X17: deletions compose as deletions of ids should: deleting an id
    twice is deleting it once, deleting two ids gives the same state in
    either order, and deleting the id of a record that was just put in front
    of a store that did not hold this id gives back the store as it was,
    with the gallery shown and nothing selected. *)
Theorem deletions_compose st :
  (forall i, handleDeleteImage i (handleDeleteImage i st) = handleDeleteImage i st) /\
  (forall i j, handleDeleteImage i (handleDeleteImage j st)
               = handleDeleteImage j (handleDeleteImage i st)) /\
  (forall r, id r ∉ id <$> images st ->
     handleDeleteImage (id r) (handleImageGenerated r st)
       = {| currentView := gallery; images := images st; selectedImage := None |}).
Proof.
  split; [|split].
  - intros i. unfold handleDeleteImage.
    destruct (selectedImage st) as [s|]; [destruct (decide (id s = i))|]; simpl;
      rewrite ?filter_ids_idemp; [done| |done].
    by rewrite decide_False.
  - intros i j. unfold handleDeleteImage.
    destruct (selectedImage st) as [s|]; simpl;
      [|by rewrite filter_ids_comm].
    destruct (decide (id s = j)), (decide (id s = i)); simpl;
      rewrite ?decide_True, ?decide_False by done; simpl;
      by rewrite filter_ids_comm.
  - intros r Hr. unfold handleDeleteImage, handleImageGenerated. simpl.
    rewrite decide_True by done.
    rewrite filter_cons_False by (intros H; by apply H).
    by rewrite filter_other_ids_absent.
Qed.

Lemma deletions_compose_witness :
  handleDeleteImage (id Sample.leaf)
    (handleImageGenerated Sample.leaf
       (Sample.store [Sample.middle; Sample.root] (Some Sample.root)))
    = {| currentView := gallery; images := [Sample.middle; Sample.root];
         selectedImage := None |}.
Proof.
  destruct (deletions_compose
              (Sample.store [Sample.middle; Sample.root] (Some Sample.root)))
    as (_ & _ & H).
  apply (H Sample.leaf). simpl. rewrite !elem_of_cons, elem_of_nil.
  intros H'. decompose [or] H'; done.
Defined.

(** X18: after a deletion no record with the deleted id is left, in the
    store or as the selection; the selection and the view change only when
    the selected image had that id, and then the gallery is shown with
    nothing selected. *)
Theorem deleted_id_is_gone id0 st :
  let st' := handleDeleteImage id0 st in
  (id0 ∉ id <$> images st') /\
  (forall sel, selectedImage st' = Some sel -> id sel <> id0) /\
  (forall sel, selectedImage st = Some sel -> id sel = id0 ->
     currentView st' = gallery /\ selectedImage st' = None) /\
  ((forall sel, selectedImage st = Some sel -> id sel <> id0) ->
     currentView st' = currentView st /\ selectedImage st' = selectedImage st).
Proof.
  cbv zeta. split; [|split; [|split]].
  - rewrite delete_images. intros (r & -> & Hr)%list_elem_of_fmap.
    by apply list_elem_of_filter in Hr as [? _].
  - intros sel H. by apply delete_selected_id in H as [_ ?].
  - intros sel Hs Hid. unfold handleDeleteImage. rewrite Hs.
    by rewrite decide_True.
  - intros H. unfold handleDeleteImage.
    destruct (selectedImage st) as [s|]; [|done].
    by rewrite decide_False by (by apply H).
Qed.

(** In a store with pairwise different ids, keeping the records with
    another id than that of the record at a position removes that position. *)
Lemma filter_id_is_delete (l : list GeneratedImage) i r :
  NoDup (id <$> l) -> l !! i = Some r ->
  filter (fun img => id img <> id r) l = delete i l.
Proof.
  revert i. induction l as [|x l IH]; intros i; [done|].
  rewrite fmap_cons. intros [Hx Hnd]%NoDup_cons Hi. destruct i as [|i]; simpl in *.
  - injection Hi as ->. rewrite filter_cons_False by (intros H; by apply H).
    by apply filter_other_ids_absent.
  - rewrite filter_cons_True.
    + f_equal. by apply IH.
    + intros E. apply Hx. rewrite E. apply list_elem_of_fmap_2.
      apply list_elem_of_lookup. eauto.
Qed.

(** X19: the delete button of a card of the gallery, which deletes the id
    of the card's image, always shrinks the store and removes that image; in
    a store with pairwise different ids it removes exactly the card that was
    clicked and leaves every other card in its place. *)
Theorem gallery_delete_removes_card st i image :
  images st !! i = Some image ->
  let st' := handleDeleteImage (id image) st in
  (List.length (images st') < List.length (images st))%nat /\
  (image ∉ images st') /\
  (NoDup (id <$> images st) -> images st' = delete i (images st)).
Proof.
  intros Hi. cbv zeta. rewrite delete_images.
  assert (image ∈ images st) as Hin by (apply list_elem_of_lookup; eauto).
  split; [|split].
  - apply (length_filter_lt _ _ image); [done|]. intros H. by apply H.
  - intros [H _]%list_elem_of_filter. by apply H.
  - intros Hnd. by apply filter_id_is_delete.
Qed.

Lemma gallery_delete_removes_card_witness :
  images (handleDeleteImage (id Sample.middle)
            (Sample.store [Sample.leaf; Sample.middle; Sample.root] None))
    = delete 1%nat [Sample.leaf; Sample.middle; Sample.root].
Proof.
  destruct (gallery_delete_removes_card
              (Sample.store [Sample.leaf; Sample.middle; Sample.root] None)
              1 Sample.middle eq_refl) as (_ & _ & H).
  apply H. simpl.
  repeat (apply NoDup_cons; split;
          [rewrite ?elem_of_cons, elem_of_nil; intros H';
           decompose [or] H'; done|]).
  by apply NoDup_nil.
Defined.

(** X20: a reload keeps the store and nothing else: when the store has been
    saved and [JSON.parse] reads back what [JSON.stringify] wrote (a text
    that is not empty), mounting [App] again logs nothing and gives the
    saved store, with the generator shown and nothing selected, and leaves
    [localStorage] as the save left it. *)
Theorem reload_restores_store json st storage :
  parse json (stringify json (images st)) = ParsedImages (images st) ->
  truthy (stringify json (images st)) = true ->
  mount json (saveEffect json st storage)
    = ([],
       Some ({| currentView := generate; images := images st;
                selectedImage := None |},
             saveEffect json st storage)).
Proof.
  intros Hp Ht. unfold mount, loadEffect, saveEffect.
  rewrite lookup_insert_eq, Ht, Hp. simpl.
  by rewrite !insert_insert_eq.
Qed.

Lemma reload_restores_store_witness :
  mount Sample.json_root
    (saveEffect Sample.json_root (Sample.store [Sample.root] (Some Sample.root))
       {[DB_KEY := "{oops"]})
    = ([],
       Some ({| currentView := generate; images := [Sample.root];
                selectedImage := None |},
             saveEffect Sample.json_root
               (Sample.store [Sample.root] (Some Sample.root))
               {[DB_KEY := "{oops"]})).
Proof.
  apply (reload_restores_store Sample.json_root
           (Sample.store [Sample.root] (Some Sample.root))); reflexivity.
Defined.

Lemma newest_first_filter (P : GeneratedImage -> Prop) `{forall x, Decision (P x)} l :
  newest_first l -> newest_first (filter P l).
Proof.
  induction 1 as [|x l Hs IH Hx]; [constructor|].
  rewrite filter_cons. destruct (decide (P x)); [|done].
  constructor; [done|]. rewrite Forall_forall in Hx |- *.
  intros y [_ Hy]%list_elem_of_filter. by apply Hx.
Qed.

Lemma step_newest_first env a st :
  newest_first (images st) ->
  match new_time a with
  | Some now => Forall (fun r => (timestamp r <= now)%Z) (images st)
  | None => True
  end ->
  newest_first (images (step env a st)).
Proof.
  intros Hs Hnow.
  destruct a as [g uuid now|e canvas uuid now|e newId now|i|id0|v]; simpl in *.
  - destruct (handleGenerate_store env uuid now g st) as [->|[u ->]]; [done|].
    by constructor.
  - destruct (selectedImage st) as [image|]; [|done].
    destruct (handleAiEdit_store env canvas uuid now image e st) as [->|[u ->]];
      [done|]. by constructor.
  - destruct (selectedImage st) as [image|]; [|done].
    destruct (legacy_handleAiEdit_store env newId now image e st)
      as [->|(u & p & ->)]; [done|]. by constructor.
  - by destruct (images st !! i).
  - rewrite delete_images. by apply newest_first_filter.
  - done.
Qed.

(** X21: the store lists the newest image first: when it does so to begin
    with (the empty store does) and the clock does not run backwards during
    a run of actions, every record of the store after the run is no older
    than the records behind it, which is the order the gallery shows. *)
Theorem store_is_newest_first env acts st :
  newest_first (images st) ->
  clock_runs_forward env acts st ->
  newest_first (images (run env acts st)).
Proof.
  revert st. induction acts as [|a acts IH]; intros st Hs Hc; [done|].
  destruct Hc as [Ha Hc]. simpl. apply IH; [|done]. by apply step_newest_first.
Qed.

Lemma store_is_newest_first_witness :
  newest_first
    (images (run Sample.online
               [Generate (Sample.form "a banana") "u1" 1;
                AiEdit (Sample.panel "add a hat") None "u2" 2;
                AiEditLegacy (Sample.old_panel "make it blue") "u3" 2]
               App.initial)).
Proof.
  apply (store_is_newest_first Sample.online).
  - constructor.
  - simpl. split; [constructor|].
    split; [constructor; [simpl; lia|constructor]|].
    split; [|done].
    constructor; [simpl; lia|]. constructor; [simpl; lia|constructor].
Defined.

(** ** The handlers, end to end *)

(** With an API key the remote model is asked exactly once by a generation. *)
Lemma keyed_generation_calls_once env prompt ar :
  truthy_opt (API_KEY env) = true ->
  List.length (remote_calls (generateImageWithGemini env prompt ar).1) = 1%nat.
Proof.
  intros Hk. unfold generateImageWithGemini. rewrite Hk. simpl.
  destruct (generateContent env _) as [resp|[n|e]]; simpl; [|done..].
  by destruct (extractImageFromResponse resp).
Qed.

(** X22: a generation that succeeds puts one record in front of the store:
    it has the id and the time it was handed, the prompt as typed, the
    ratio chosen in the form, a data URL with a type and data, and no
    parent; the editor is shown with this record selected, and the form is
    left with an empty prompt, no error and not loading. *)
Theorem successful_generation env uuid now g app t imageUrl :
  truthy (trim (Generator.prompt g)) = true ->
  generateImageWithGemini env (Generator.prompt g) (Generator.aspectRatio g)
    = (t, Ok imageUrl) ->
  let newImage :=
    {| id := uuid; url := imageUrl; prompt := Generator.prompt g;
       aspectRatio := ratio_string (Generator.aspectRatio g);
       timestamp := now; model := "gemini-2.5-flash-image";
       parentId := None |} in
  Generator.handleGenerate env uuid now g app
    = (t,
       {| Generator.prompt := ""; Generator.aspectRatio := Generator.aspectRatio g;
          Generator.loading := false; Generator.error := None |},
       {| currentView := editor; images := newImage :: images app;
          selectedImage := Some newImage |}) /\
  (exists mime data,
     mime <> EmptyString /\ data <> EmptyString /\
     imageUrl = "data:" ++ mime ++ ";base64," ++ data) /\
  List.length (remote_calls t) = 1%nat.
Proof.
  intros Hp Hg newImage. split; [|split].
  - unfold Generator.handleGenerate. by rewrite Hp, Hg.
  - by apply generate_Ok_inv in Hg as [_ ?].
  - pose proof (generate_Ok_inv _ _ _ _ _ Hg) as [Hk _].
    pose proof (keyed_generation_calls_once env (Generator.prompt g)
                  (Generator.aspectRatio g) Hk) as Hc.
    by rewrite Hg in Hc.
Qed.

Lemma successful_generation_witness :
  (Generator.handleGenerate Sample.online "u1" 1 (Sample.form " a banana ")
     (Sample.store [Sample.root] None)).2
    = {| currentView := editor;
         images := {| id := "u1"; url := "data:image/png;base64,iVBORw0KGgo=";
                      prompt := " a banana "; aspectRatio := "16:9";
                      timestamp := 1; model := "gemini-2.5-flash-image";
                      parentId := None |} :: [Sample.root];
         selectedImage :=
           Some {| id := "u1"; url := "data:image/png;base64,iVBORw0KGgo=";
                   prompt := " a banana "; aspectRatio := "16:9";
                   timestamp := 1; model := "gemini-2.5-flash-image";
                   parentId := None |} |}.
Proof.
  destruct (successful_generation Sample.online "u1" 1 (Sample.form " a banana ")
              (Sample.store [Sample.root] None)
              (generateImageWithGemini Sample.online " a banana " R16_9).1
              "data:image/png;base64,iVBORw0KGgo=" eq_refl eq_refl) as [E _].
  by rewrite E.
Defined.

(** X23: with an API key, the generation form contacts the remote model
    exactly when the prompt holds a character that is not white space (tab,
    line feed, vertical tab, form feed, carriage return, space, no-break
    space): a prompt of white space only sends nothing, any other prompt
    sends one request that holds the prompt untrimmed. *)
Theorem prompt_is_sent_unless_blank env uuid now g app :
  truthy_opt (API_KEY env) = true ->
  let events := (Generator.handleGenerate env uuid now g app).1.1 in
  if all_chars isWhiteSpace (Generator.prompt g)
  then events = []
  else remote_calls events
       = [ {| req_model := "gemini-2.5-flash-image";
              req_parts := [TextPart (Generator.prompt g)];
              req_imageConfig := Some (Generator.aspectRatio g) |} ].
Proof.
  intros Hk. cbv zeta. unfold Generator.handleGenerate.
  destruct (all_chars isWhiteSpace (Generator.prompt g)) eqn:Hw.
  - apply trim_empty_iff in Hw. by rewrite Hw.
  - destruct (truthy (trim (Generator.prompt g))) eqn:Ht; simpl.
    + unfold generateImageWithGemini. rewrite Hk. simpl.
      destruct (generateContent env _) as [resp|[n|e]]; simpl; [|done..].
      by destruct (extractImageFromResponse resp).
    + apply truthy_false, trim_empty_iff in Ht. congruence.
Qed.

Lemma prompt_is_sent_unless_blank_witness :
  (Generator.handleGenerate Sample.online "u1" 1 (Sample.form "   ")
     (Sample.store [] None)).1.1 = [] /\
  remote_calls (Generator.handleGenerate Sample.online "u1" 1
                  (Sample.form " a banana ") (Sample.store [] None)).1.1
    = [ {| req_model := "gemini-2.5-flash-image";
           req_parts := [TextPart " a banana "];
           req_imageConfig := Some R16_9 |} ].
Proof.
  split.
  - exact (prompt_is_sent_unless_blank Sample.online "u1" 1 (Sample.form "   ")
             (Sample.store [] None) eq_refl).
  - exact (prompt_is_sent_unless_blank Sample.online "u1" 1
             (Sample.form " a banana ") (Sample.store [] None) eq_refl).
Defined.

Lemma match_data_url_no_line_break s m d :
  match_data_url s = Some (m, d) ->
  all_chars (fun a => negb (isLineTerminator a)) s = true.
Proof.
  unfold match_data_url.
  destruct (strip_prefix "data:" s) as [[|c rest]|] eqn:P; try done.
  destruct (all_chars _ (String c rest)) eqn:Hl; [|done].
  intros _. apply strip_prefix_Some in P as ->.
  by rewrite all_chars_app, Hl.
Qed.

(** X24: a source with a line break in it is no source for an edit: with an
    API key, [editImageWithGemini] throws "Invalid image format. Expected
    data URL." for every source that holds a line feed or a carriage
    return, also one that is otherwise a data URL, and sends nothing. *)
Theorem edit_rejects_line_breaks env source instruction :
  truthy_opt (API_KEY env) = true ->
  all_chars (fun a => negb (isLineTerminator a)) source = false ->
  editImageWithGemini env source instruction
    = ([], Error "Invalid image format. Expected data URL.").
Proof.
  intros Hk Hl. unfold editImageWithGemini. rewrite Hk. simpl.
  destruct (match_data_url source) as [[m d]|] eqn:E; [|done].
  apply match_data_url_no_line_break in E. congruence.
Qed.

Lemma edit_rejects_line_breaks_witness :
  editImageWithGemini Sample.online
    ("data:image/png;base64,AAAA" ++ String (ascii_of_nat 10) "AAAA") "add a hat"
    = ([], Error "Invalid image format. Expected data URL.").
Proof.
  apply (edit_rejects_line_breaks Sample.online); reflexivity.
Defined.

(** X25: an image the earlier editor made shows no history: the record it
    appends has no [parentId], so that over the new store, when no record
    names the new id as its parent, the history of the new record is the
    record alone, without the image it was edited from. *)
Theorem legacy_edit_has_no_history env newId now image ed app t newImageUrl :
  truthy (trim (EditorLegacy.editPrompt ed)) = true ->
  editImageWithGemini env (url image) (EditorLegacy.editPrompt ed)
    = (t, Ok newImageUrl) ->
  (forall c, c ∈ images app -> parentId c <> Some newId) ->
  let app' := (EditorLegacy.handleAiEdit env newId now image ed app).2 in
  exists newImage,
    images app' = newImage :: images app /\
    id newImage = newId /\
    Editor.historyLineage newImage (images app') = Some [newImage].
Proof.
  intros Hp Hg Hc. cbv zeta. unfold EditorLegacy.handleAiEdit.
  rewrite Hp, Hg. simpl. eexists. split; [reflexivity|]. split; [done|].
  apply lone_image_history; [done|].
  intros c [->|Hin]%elem_of_cons; [done|]. by apply Hc.
Qed.

Lemma legacy_edit_has_no_history_witness :
  exists newImage,
    images (EditorLegacy.handleAiEdit Sample.online "u2" 20 Sample.root
              (Sample.old_panel "add a hat") (Sample.store [Sample.root] None)).2
      = newImage :: [Sample.root] /\
    id newImage = "u2" /\
    Editor.historyLineage newImage (newImage :: [Sample.root]) = Some [newImage].
Proof.
  destruct (legacy_edit_has_no_history Sample.online "u2" 20 Sample.root
              (Sample.old_panel "add a hat") (Sample.store [Sample.root] None)
              (editImageWithGemini Sample.online (url Sample.root) "add a hat").1
              "data:image/png;base64,iVBORw0KGgo=" eq_refl eq_refl)
    as (newImage & E & Hid & H).
  - by intros c ->%list_elem_of_singleton.
  - exists newImage. by rewrite E in H.
Defined.
